(** * A shallow embedding of [src/tiles.rs] (egui_tile_tree)

    The arena [Tiles::tiles : HashMap<TileId, Tile<Pane>>] is a [gmap]
    from tile ids to tiles.  [TileId] is a 64-bit random value: it is an
    [N] here and [TileId::random()] is modelled by a supply of ids (a
    counter threaded through the functions that draw ids).  The
    recursive walks of the arena are written with an explicit fuel
    argument; [None] stands for "ran out of fuel" and is never a
    behaviour of the Rust code.

    The container module ([Container::retain], [simplify_children],
    [Tabs::new], [Linear::new], [Grid::new], the per-kind layout and ui
    routines) is not part of [src/]; where a claim needs it, it is
    modelled from the spec and the definition says so. *)

From Stdlib Require Import Classical_Prop.
From stdpp Require Import base gmap list.

Abbreviation TileId := N (only parsing).

(** ** Data model *)

Record GridLoc := { col : nat; row : nat }.

#[global] Instance GridLoc_eq_dec : EqDecision GridLoc.
Proof. intros [c1 r1] [c2 r2]. unfold Decision. decide equality; apply Nat.eq_dec. Defined.

Inductive LinearDir := Horizontal | Vertical.

#[global] Instance LinearDir_eq_dec : EqDecision LinearDir.
Proof. intros d1 d2. unfold Decision. decide equality. Defined.

Record Tabs := { tabs_children : list TileId; tabs_active : TileId }.

(** [Linear] also carries per-child size shares (floats); no claim
    here reads them, so they are left out. *)
Record Linear := { linear_dir : LinearDir; linear_children : list TileId }.

Record Grid := { grid_children : list TileId; grid_locations : gmap TileId GridLoc }.

Inductive Container :=
  | ContainerTabs (t : Tabs)
  | ContainerLinear (l : Linear)
  | ContainerGrid (g : Grid).

Inductive Layout := LayoutTabs | LayoutHorizontal | LayoutVertical | LayoutGrid.

#[global] Instance Layout_eq_dec : EqDecision Layout.
Proof. intros a b. unfold Decision. decide equality. Defined.

Inductive Tile (Pane : Type) :=
  | TilePane (p : Pane)
  | TileContainer (c : Container).
Arguments TilePane {Pane} p.
Arguments TileContainer {Pane} c.

Inductive LayoutInsertion :=
  | InsTabs (index : nat)
  | InsHorizontal (index : nat)
  | InsVertical (index : nat)
  | InsGrid (loc : GridLoc).

Record InsertionPoint := { parent_id : TileId; insertion : LayoutInsertion }.

Inductive GcAction := GcKeep | GcRemove.

Inductive SimplifyAction := Keep | Remove | Replace (id : TileId).

Record SimplificationOptions := {
  prune_empty_tabs : bool;
  prune_empty_layouts : bool;
  prune_single_child_tabs : bool;
  prune_single_child_layouts : bool;
  all_panes_must_have_tabs : bool
}.

(** [egui::Pos2] / [egui::Rect]; the coordinates (f32) are written as [Z]. *)
Record Pos2 := { x : Z; y : Z }.
Record Rect := { rect_min : Pos2; rect_max : Pos2 }.

Definition Pos2_ZERO : Pos2 := {| x := 0; y := 0 |}.
Definition Rect_from_min_max (a b : Pos2) : Rect := {| rect_min := a; rect_max := b |}.

(** [TileId::random()]: draws the next id of the supply. *)
Definition random (rng : N) : TileId * N := (rng, N.succ rng).

(** [Vec::insert(index, x)]; every call site clamps [index] to the length. *)
Definition vec_insert {A} (l : list A) (index : nat) (v : A) : list A :=
  take index l ++ v :: drop index l.

(** ** Container helpers *)

(** Modelled from the spec: [Tabs::new] (not in src/) makes a Tabs
    container over [children]; its active child is the first one (none,
    id 0, if empty). *)
Definition Tabs_new (children : list TileId) : Tabs :=
  {| tabs_children := children; tabs_active := default 0%N (head children) |}.

(** Modelled from the spec: [Linear::new] (not in src/). *)
Definition Linear_new (dir : LinearDir) (children : list TileId) : Linear :=
  {| linear_dir := dir; linear_children := children |}.

(** Modelled from the spec: [Grid::new] (not in src/); no child has a
    location yet. *)
Definition Grid_new (children : list TileId) : Grid :=
  {| grid_children := children; grid_locations := ∅ |}.

(** Modelled from the spec: [Container::new_tabs] (not in src/). *)
Definition Container_new_tabs (children : list TileId) : Container :=
  ContainerTabs (Tabs_new children).



(** Modelled from the spec: [Container::children] (not in src/). *)
Definition container_children (c : Container) : list TileId :=
  match c with
  | ContainerTabs t => tabs_children t
  | ContainerLinear l => linear_children l
  | ContainerGrid g => grid_children g
  end.

(** Modelled from the spec: [Container::layout] (not in src/). *)
Definition container_layout (c : Container) : Layout :=
  match c with
  | ContainerTabs _ => LayoutTabs
  | ContainerLinear l =>
      match linear_dir l with Horizontal => LayoutHorizontal | Vertical => LayoutVertical end
  | ContainerGrid _ => LayoutGrid
  end.

(** Modelled from the spec: [Container::is_empty] (not in src/). *)
Definition container_is_empty (c : Container) : bool :=
  match container_children c with [] => true | _ => false end.

Section Arena.
Context {Pane : Type}.

Abbreviation Arena := (gmap TileId (Tile Pane)).

(** ** [Tiles::rect] and [Tiles::try_rect]

    [debug_assert!] panics when debug assertions are enabled; [None] is
    that panic. *)
Definition try_rect (rects : gmap TileId Rect) (tile_id : TileId) : option Rect :=
  rects !! tile_id.

Definition rect (debug_assertions : bool) (rects : gmap TileId Rect) (tile_id : TileId)
  : option Rect :=
  let r := try_rect rects tile_id in
  if debug_assertions && negb (bool_decide (is_Some r)) then None
  else Some (default (Rect_from_min_max Pos2_ZERO Pos2_ZERO) r).

(** ** [Tiles::get] *)
Definition get (ts : Arena) (tile_id : TileId) : option (Tile Pane) :=
  ts !! tile_id.

(** ** [Tiles::insert_tile] *)
Definition insert_tile (tile : Tile Pane) (ts : Arena) (rng : N) : TileId * Arena * N :=
  let '(id, rng) := random rng in
  (id, <[id := tile]> ts, rng).

(** ** [Tiles::insert_pane], [insert_container] and the [insert_*_tile]
    shorthands *)
Definition insert_pane (pane : Pane) (ts : Arena) (rng : N) : TileId * Arena * N :=
  insert_tile (TilePane pane) ts rng.

Definition insert_container (contaioner : Container) (ts : Arena) (rng : N)
  : TileId * Arena * N :=
  insert_tile (TileContainer contaioner) ts rng.





(** ** [Tiles::insert] *)
Definition insert (ip : InsertionPoint) (child_id : TileId) (ts : Arena) (rng : N)
  : Arena * N :=
  let pid := parent_id ip in
  match ts !! pid with
  | None => (ts, rng)
  | Some tile =>
    let ts := delete pid ts in
    match insertion ip with
    | InsTabs index =>
        match tile with
        | TileContainer (ContainerTabs tabs) =>
            let index := Nat.min index (length (tabs_children tabs)) in
            let tabs := {| tabs_children := vec_insert (tabs_children tabs) index child_id;
                           tabs_active := child_id |} in
            (<[pid := TileContainer (ContainerTabs tabs)]> ts, rng)
        | _ =>
            let '(new_tile_id, ts, rng) := insert_tile tile ts rng in
            let tabs := Tabs_new [new_tile_id] in
            let tabs := {| tabs_children := vec_insert (tabs_children tabs) (Nat.min index 1) child_id;
                           tabs_active := child_id |} in
            (<[pid := TileContainer (ContainerTabs tabs)]> ts, rng)
        end
    | InsHorizontal index =>
        match tile with
        | TileContainer (ContainerLinear (Build_Linear Horizontal children)) =>
            let index := Nat.min index (length children) in
            let children := vec_insert children index child_id in
            (<[pid := TileContainer (ContainerLinear (Build_Linear Horizontal children))]> ts, rng)
        | _ =>
            let '(new_tile_id, ts, rng) := insert_tile tile ts rng in
            let linear := Linear_new Horizontal [new_tile_id] in
            let linear := Linear_new Horizontal
                            (vec_insert (linear_children linear) (Nat.min index 1) child_id) in
            (<[pid := TileContainer (ContainerLinear linear)]> ts, rng)
        end
    | InsVertical index =>
        match tile with
        | TileContainer (ContainerLinear (Build_Linear Vertical children)) =>
            let index := Nat.min index (length children) in
            let children := vec_insert children index child_id in
            (<[pid := TileContainer (ContainerLinear (Build_Linear Vertical children))]> ts, rng)
        | _ =>
            let '(new_tile_id, ts, rng) := insert_tile tile ts rng in
            let linear := Linear_new Vertical [new_tile_id] in
            let linear := Linear_new Vertical
                            (vec_insert (linear_children linear) (Nat.min index 1) child_id) in
            (<[pid := TileContainer (ContainerLinear linear)]> ts, rng)
        end
    | InsGrid insert_location =>
        match tile with
        | TileContainer (ContainerGrid grid) =>
            let locs := filter (fun kv : TileId * GridLoc => kv.2 <> insert_location)
                          (grid_locations grid) in
            let locs := <[child_id := insert_location]> locs in
            let grid := {| grid_children := grid_children grid ++ [child_id];
                           grid_locations := locs |} in
            (<[pid := TileContainer (ContainerGrid grid)]> ts, rng)
        | _ =>
            let '(new_tile_id, ts, rng) := insert_tile tile ts rng in
            let grid := Grid_new [new_tile_id; child_id] in
            let grid := {| grid_children := grid_children grid;
                           grid_locations := <[child_id := insert_location]> (grid_locations grid) |} in
            (<[pid := TileContainer (ContainerGrid grid)]> ts, rng)
        end
    end
  end.

End Arena.

(** ** Arena-wide predicates used by the statements *)

Definition tile_children {Pane} (t : Tile Pane) : list TileId :=
  match t with TilePane _ => [] | TileContainer c => container_children c end.

(** No two children of a grid share a location. *)
Definition locations_injective (locs : gmap TileId GridLoc) : Prop :=
  forall a b l, locs !! a = Some l -> locs !! b = Some l -> a = b.

Definition grids_ok {Pane} (ts : gmap TileId (Tile Pane)) : Prop :=
  forall id g, ts !! id = Some (TileContainer (ContainerGrid g)) ->
  locations_injective (grid_locations g).

(** A sequence of [insert] calls, each with the id supply left by the
    previous one. *)
Fixpoint insert_all {Pane} (ops : list (InsertionPoint * TileId))
    (ts : gmap TileId (Tile Pane)) (rng : N) : gmap TileId (Tile Pane) * N :=
  match ops with
  | [] => (ts, rng)
  | (ip, c) :: ops => let '(ts, rng) := insert ip c ts rng in insert_all ops ts rng
  end.

(** ** Reachability: ids reached from [root] by following the children
    of containers. *)
Inductive reachable {Pane} (ts : gmap TileId (Tile Pane)) (root : TileId) : TileId -> Prop :=
  | reachable_root : reachable ts root root
  | reachable_child a c b :
      reachable ts root a -> ts !! a = Some (TileContainer c) ->
      b ∈ container_children c -> reachable ts root b.

(** Modelled from the spec: the container methods that edit the children
    list in place (not in src/) replace it and keep all else. *)
Definition container_set_children (c : Container) (children : list TileId) : Container :=
  match c with
  | ContainerTabs t => ContainerTabs {| tabs_children := children; tabs_active := tabs_active t |}
  | ContainerLinear l => ContainerLinear {| linear_dir := linear_dir l; linear_children := children |}
  | ContainerGrid g => ContainerGrid {| grid_children := children; grid_locations := grid_locations g |}
  end.

(** Visits [cs] left to right with a stateful visitor, collecting each
    child with the visitor's answer (the closures handed to
    [Vec::retain] / [retain_mut] inside the container methods). *)
Fixpoint visit_children {S A : Type} (f : TileId -> S -> option (A * S))
    (cs : list TileId) (s : S) : option (list (TileId * A) * S) :=
  match cs with
  | [] => Some ([], s)
  | c :: cs =>
      match f c s with
      | None => None
      | Some (a, s) =>
          match visit_children f cs s with
          | None => None
          | Some (acts, s) => Some ((c, a) :: acts, s)
          end
      end
  end.

(** Modelled from the spec: [Container::retain] (not in src/) keeps, in
    order, the children whose visit returned [Keep]. *)
Definition gc_kept (acts : list (TileId * GcAction)) : list TileId :=
  flat_map (fun ca => match ca.2 with GcKeep => [ca.1] | GcRemove => [] end) acts.

Section Gc.
Context {Pane : Type}.
Context (retain_pane : Pane -> bool).

(** [Tiles::gc_tile_id]; the state threaded through the visits of the
    children is the visited set and the arena. *)
Fixpoint gc_tile_id (fuel : nat) (tile_id : TileId)
    (st : gset TileId * gmap TileId (Tile Pane))
    : option (GcAction * (gset TileId * gmap TileId (Tile Pane))) :=
  match fuel with
  | O => None
  | S fuel =>
    let '(visited, ts) := st in
    match ts !! tile_id with
    | None => Some (GcRemove, (visited, ts))
    | Some tile =>
      let ts := delete tile_id ts in
      if decide (tile_id ∈ visited) then Some (GcRemove, (visited, ts)) else
      let visited := {[tile_id]} ∪ visited in
      match tile with
      | TilePane p =>
          if retain_pane p then Some (GcKeep, (visited, <[tile_id := tile]> ts))
          else Some (GcRemove, (visited, ts))
      | TileContainer c =>
          match visit_children (gc_tile_id fuel) (container_children c) (visited, ts) with
          | None => None
          | Some (acts, (visited, ts)) =>
              Some (GcKeep, (visited,
                <[tile_id := TileContainer (container_set_children c (gc_kept acts))]> ts))
          end
      end
    end
  end.

(** [Tiles::gc_root], run with enough fuel for every walk (each visit
    that recurses removes a tile from the arena). *)
Definition gc_root (root_id : TileId) (ts : gmap TileId (Tile Pane))
    : option (gmap TileId (Tile Pane)) :=
  match gc_tile_id (S (size ts)) root_id (∅, ts) with
  | None => None
  | Some (_, (visited, ts)) => Some (filter (fun kv : TileId * Tile Pane => kv.1 ∈ visited) ts)
  end.

End Gc.

(** ** Simplification *)

(** Modelled from the spec: [Container::simplify_children] (not in src/)
    drops the slot of a child answering [Remove] and substitutes the
    returned id for a child answering [Replace]. *)
Definition simplified_children (acts : list (TileId * SimplifyAction)) : list TileId :=
  flat_map (fun ca => match ca.2 with
                      | Keep => [ca.1] | Remove => [] | Replace n => [n] end) acts.

(** Modelled from the spec: in [Container::simplify_children] (not in
    src/), a Tabs container whose active child is replaced makes the
    replacement active. *)
Definition simplified_active (active : TileId) (acts : list (TileId * SimplifyAction)) : TileId :=
  fold_left (fun act ca => match ca.2 with
                           | Replace n => if decide (act = ca.1) then n else act
                           | _ => act end) acts active.

(** Modelled from the spec: [Container::simplify_children] (not in src/)
    on the children's answers [acts]. *)
Definition container_simplify_children (c : Container) (acts : list (TileId * SimplifyAction))
    : Container :=
  match c with
  | ContainerTabs t =>
      ContainerTabs {| tabs_children := simplified_children acts;
                       tabs_active := simplified_active (tabs_active t) acts |}
  | _ => container_set_children c (simplified_children acts)
  end.

Definition is_pane {Pane} (t : option (Tile Pane)) : bool :=
  match t with Some (TilePane _) => true | _ => false end.

Section Simplify.
Context {Pane : Type}.
Context (options : SimplificationOptions).

(** The policy part of [Tiles::simplify] (lines 300-324), run on the
    container once its children are simplified; [children()[0]] is in
    bounds where it is read. *)
Definition simplify_decision (c : Container) (ts : gmap TileId (Tile Pane)) : SimplifyAction :=
  let child0 := default 0%N (head (container_children c)) in
  if decide (container_layout c = LayoutTabs) then
    if prune_empty_tabs options && container_is_empty c then Remove
    else if prune_single_child_tabs options && Nat.eqb (length (container_children c)) 1 then
      if all_panes_must_have_tabs options && is_pane (ts !! child0) then Keep
      else Replace child0
    else Keep
  else
    if prune_empty_layouts options && container_is_empty c then Remove
    else if prune_single_child_layouts options && Nat.eqb (length (container_children c)) 1 then
      Replace child0
    else Keep.

(** [Tiles::simplify]. *)
Fixpoint simplify (fuel : nat) (it : TileId) (ts : gmap TileId (Tile Pane))
    : option (SimplifyAction * gmap TileId (Tile Pane)) :=
  match fuel with
  | O => None
  | S fuel =>
    match ts !! it with
    | None => Some (Remove, ts)
    | Some tile =>
      let ts := delete it ts in
      match tile with
      | TilePane _ => Some (Keep, <[it := tile]> ts)
      | TileContainer c =>
          match visit_children (simplify fuel) (container_children c) ts with
          | None => None
          | Some (acts, ts) =>
              let c := container_simplify_children c acts in
              match simplify_decision c ts with
              | Keep => Some (Keep, <[it := TileContainer c]> ts)
              | a => Some (a, ts)
              end
          end
      end
    end
  end.

(** One call of [simplify] from the tree, with enough fuel. *)
Definition run_simplify (it : TileId) (ts : gmap TileId (Tile Pane))
    : option (SimplifyAction * gmap TileId (Tile Pane)) :=
  simplify (S (size ts)) it ts.

End Simplify.

(** ** Tab normalization *)

(** [for &child in container.children() { ... }] with a stateful body. *)
Fixpoint for_each_child {St : Type} (f : TileId -> St -> option St) (cs : list TileId) (s : St)
    : option St :=
  match cs with
  | [] => Some s
  | c :: cs => match f c s with None => None | Some s => for_each_child f cs s end
  end.

Section MakeAllPanes.
Context {Pane : Type}.

(** [Tiles::make_all_panes_children_of_tabs]; the id supply is threaded
    with the arena. *)
Fixpoint make_all_panes_children_of_tabs (fuel : nat) (parent_is_tabs : bool) (it : TileId)
    (st : gmap TileId (Tile Pane) * N) : option (gmap TileId (Tile Pane) * N) :=
  match fuel with
  | O => None
  | S fuel =>
    let '(ts, rng) := st in
    match ts !! it with
    | None => Some (ts, rng)
    | Some tile =>
      let ts := delete it ts in
      match tile with
      | TilePane _ =>
          if negb parent_is_tabs then
            let '(new_id, rng) := random rng in
            let ts := <[new_id := tile]> ts in
            Some (<[it := TileContainer (Container_new_tabs [new_id])]> ts, rng)
          else Some (<[it := tile]> ts, rng)
      | TileContainer c =>
          let is_tabs := bool_decide (container_layout c = LayoutTabs) in
          match for_each_child (make_all_panes_children_of_tabs fuel is_tabs)
                  (container_children c) (ts, rng) with
          | None => None
          | Some (ts, rng) => Some (<[it := tile]> ts, rng)
          end
      end
    end
  end.

(** One call from the tree, with enough fuel. *)
Definition run_make_all_panes_children_of_tabs (parent_is_tabs : bool) (it : TileId)
    (ts : gmap TileId (Tile Pane)) (rng : N) : option (gmap TileId (Tile Pane) * N) :=
  make_all_panes_children_of_tabs (S (2 * size ts)) parent_is_tabs it (ts, rng).

End MakeAllPanes.

(** The id supply is fresh for an arena when every id in it, as a key or
    as a child, is below the next id drawn. *)
Definition well_supplied {Pane} (ts : gmap TileId (Tile Pane)) (rng : N) : Prop :=
  map_Forall (fun k t => (k < rng)%N /\ Forall (fun ch => (ch < rng)%N) (tile_children t)) ts.

(** ** Layout and ui passes *)

(** [for (i, &child) in children.iter().enumerate() { ... }]. *)
Fixpoint for_each_child_indexed {St : Type} (f : nat -> TileId -> St -> option St)
    (i : nat) (cs : list TileId) (s : St) : option St :=
  match cs with
  | [] => Some s
  | c :: cs =>
      match f i c s with None => None | Some s => for_each_child_indexed f (S i) cs s end
  end.

Section Layout.
Context {Pane : Type}.

(** The container's own layout rule: the rectangle of its [i]-th child
    inside the container's rectangle.  Any rule will do below. *)
Context (child_rect : Container -> Rect -> nat -> Rect).

(** Modelled from the spec: [Container::layout_recursive] (not in src/)
    gives each child the sub-rectangle of the container's layout rule and
    lays the children out in order, each through [layout_child]. *)
Definition layout_recursive {St : Type} (layout_child : Rect -> TileId -> St -> option St)
    (c : Container) (rect : Rect) (st : St) : option St :=
  for_each_child_indexed (fun i ch => layout_child (child_rect c rect i) ch)
    0 (container_children c) st.

(** [Tiles::layout_tile]. *)
Fixpoint layout_tile (fuel : nat) (rect : Rect) (tile_id : TileId)
    (st : gmap TileId (Tile Pane) * gmap TileId Rect)
    : option (gmap TileId (Tile Pane) * gmap TileId Rect) :=
  match fuel with
  | O => None
  | S fuel =>
    let '(ts, rects) := st in
    match ts !! tile_id with
    | None => Some (ts, rects)
    | Some tile =>
      let ts := delete tile_id ts in
      let rects := <[tile_id := rect]> rects in
      match tile with
      | TilePane _ => Some (<[tile_id := tile]> ts, rects)
      | TileContainer c =>
          match layout_recursive (layout_tile fuel) c rect (ts, rects) with
          | None => None
          | Some (ts, rects) => Some (<[tile_id := tile]> ts, rects)
          end
      end
    end
  end.

End Layout.

(** The per-frame drag-and-drop state. *)
Record DropContext := {
  enabled : bool;
  dragged_tile_id : option TileId;
  candidates : list (TileId * Rect)
}.

(** Modelled from the spec: [DropContext::on_tile] (not in src/) records
    the tile's rectangle as a drop candidate while drop detection is
    enabled. *)
Definition on_tile (dc : DropContext) (tile_id : TileId) (rect : Rect) : DropContext :=
  if enabled dc
  then {| enabled := true; dragged_tile_id := dragged_tile_id dc;
          candidates := (tile_id, rect) :: candidates dc |}
  else dc.

Definition set_enabled (dc : DropContext) (b : bool) : DropContext :=
  {| enabled := b; dragged_tile_id := dragged_tile_id dc; candidates := candidates dc |}.

Record UiState {Pane : Type} := {
  ui_tiles : gmap TileId (Tile Pane);
  ui_rects : gmap TileId Rect;
  ui_drop : DropContext;
  ui_dragged : option TileId  (** [ui.memory().dragged_id] *)
}.
Arguments UiState : clear implicits.

(** Modelled from the spec: [Container::ui] (not in src/) runs the ui of
    each child in order, each through [child_ui]. *)
Definition container_ui {St : Type} (child_ui : TileId -> St -> option St) (c : Container)
    (st : St) : option St :=
  for_each_child child_ui (container_children c) st.

Section TileUi.
Context {Pane : Type}.

(** [Behavior::pane_ui]: [true] is [UiResponse::DragStarted]. *)
Context (pane_ui : TileId -> Pane -> bool).

(** [Tiles::tile_ui]. *)
Fixpoint tile_ui (fuel : nat) (tile_id : TileId) (st : UiState Pane) : option (UiState Pane) :=
  match fuel with
  | O => None
  | S fuel =>
    match try_rect (ui_rects st) tile_id with
    | None => Some st
    | Some rect =>
      match ui_tiles st !! tile_id with
      | None => Some st
      | Some tile =>
        let ts := delete tile_id (ui_tiles st) in
        let dc := ui_drop st in
        let drop_context_was_enabled := enabled dc in
        let dc := if decide (Some tile_id = dragged_tile_id dc) then set_enabled dc false else dc in
        let dc := on_tile dc tile_id rect in
        let st := {| ui_tiles := ts; ui_rects := ui_rects st; ui_drop := dc;
                     ui_dragged := ui_dragged st |} in
        let st :=
          match tile with
          | TilePane p =>
              Some (if pane_ui tile_id p
                    then {| ui_tiles := ui_tiles st; ui_rects := ui_rects st;
                            ui_drop := ui_drop st; ui_dragged := Some tile_id |}
                    else st)
          | TileContainer c => container_ui (tile_ui fuel) c st
          end in
        match st with
        | None => None
        | Some st =>
            Some {| ui_tiles := <[tile_id := tile]> (ui_tiles st); ui_rects := ui_rects st;
                    ui_drop := set_enabled (ui_drop st) drop_context_was_enabled;
                    ui_dragged := ui_dragged st |}
        end
      end
    end
  end.

End TileUi.

(** A measure for [make_all_panes_children_of_tabs]: the tiles whose id
    is below [r0] (ids the supply had not yet drawn when the walk began),
    the panes among them counting twice. *)
Definition low_tiles {Pane} (r0 : N) (m : gmap TileId (Tile Pane)) : gmap TileId (Tile Pane) :=
  filter (fun kv : TileId * Tile Pane => (kv.1 < r0)%N) m.

Definition low_panes {Pane} (r0 : N) (m : gmap TileId (Tile Pane)) : gmap TileId (Tile Pane) :=
  filter (fun kv : TileId * Tile Pane => (kv.1 < r0)%N /\ is_pane (Some kv.2) = true) m.

Definition tabs_potential {Pane} (r0 : N) (m : gmap TileId (Tile Pane)) : nat :=
  size (low_tiles r0 m) + size (low_panes r0 m).

(** The invariant of the walk: the supply only grows past [r0] and stays
    above every key; every container has an id below [r0], and a
    container that is not [Tabs] has only children below [r0]. *)
Definition tabs_inv {Pane} (r0 : N) (m : gmap TileId (Tile Pane)) (rng : N) : Prop :=
  (r0 <= rng)%N /\ (forall k t, m !! k = Some t -> (k < rng)%N) /\
  (forall k c, m !! k = Some (TileContainer c) -> (k < r0)%N /\
     (container_layout c <> LayoutTabs -> forall ch, ch ∈ container_children c -> (ch < r0)%N)).

(** What a walk of [make_all_panes_children_of_tabs] may change: every
    container stays in place; an id below [r0] that was free stays free;
    a pane at a fresh id ([r0] or above) stays; a container that was not
    there before is a [Tabs] whose children are fresh panes; and a pane
    below [r0] stays, or is wrapped in a one-child [Tabs] over a fresh id
    holding the pane. *)
Definition tabs_adv {Pane} (r0 : N) (m m' : gmap TileId (Tile Pane)) : Prop :=
  (forall k c, m !! k = Some (TileContainer c) -> m' !! k = Some (TileContainer c)) /\
  (forall k, (k < r0)%N -> m !! k = None -> m' !! k = None) /\
  (forall k p, (r0 <= k)%N -> m !! k = Some (TilePane p) -> m' !! k = Some (TilePane p)) /\
  (forall k c, m' !! k = Some (TileContainer c) ->
     m !! k = Some (TileContainer c) \/
     (container_layout c = LayoutTabs /\
      forall n, n ∈ container_children c -> (r0 <= n)%N /\ is_pane (m' !! n) = true)) /\
  (forall k p, (k < r0)%N -> m !! k = Some (TilePane p) ->
     m' !! k = Some (TilePane p) \/
     exists n, (r0 <= n)%N /\ m !! n = None /\
       m' !! k = Some (TileContainer (Container_new_tabs [n])) /\ m' !! n = Some (TilePane p)).

(** The ids on the stack of the walk ([S]) are below [r0] and taken out
    of the arena; every other container of the initial arena [m0] is in
    place. *)
Definition tabs_stack {Pane} (r0 : N) (m0 m : gmap TileId (Tile Pane)) (S : gset TileId) : Prop :=
  (forall k, k ∈ S -> (k < r0)%N /\ m !! k = None) /\
  (forall k c, m0 !! k = Some (TileContainer c) -> k ∉ S -> m !! k = Some (TileContainer c)).

(** The containers [D] of [m0] already walked: those that are not [Tabs]
    have no pane child left, and their container children are walked or
    on the stack. *)
Definition tabs_done {Pane} (m0 m : gmap TileId (Tile Pane)) (S D : gset TileId) : Prop :=
  forall x c, x ∈ D -> m0 !! x = Some (TileContainer c) ->
    (container_layout c <> LayoutTabs ->
       forall y, y ∈ container_children c -> is_pane (m !! y) = false) /\
    (forall y c', y ∈ container_children c -> m0 !! y = Some (TileContainer c') ->
       y ∈ D \/ y ∈ S).

(** Option sets for the examples: only single-child tabs pruned, and
    everything pruned. *)
Definition opts_single_tabs : SimplificationOptions :=
  {| prune_empty_tabs := false; prune_empty_layouts := false;
     prune_single_child_tabs := true; prune_single_child_layouts := false;
     all_panes_must_have_tabs := false |}.

Definition opts_all : SimplificationOptions :=
  {| prune_empty_tabs := true; prune_empty_layouts := true;
     prune_single_child_tabs := true; prune_single_child_layouts := true;
     all_panes_must_have_tabs := true |}.

(** A small arena for the examples: a horizontal layout 1 over a pane 2
    and a tabs container 3, whose only tab is the pane 4. *)
Definition tabs_example_arena : gmap TileId (Tile nat) :=
  <[1%N := TileContainer (ContainerLinear (Linear_new Horizontal [2%N; 3%N]))]>
  (<[2%N := TilePane 0]>
  (<[3%N := TileContainer (Container_new_tabs [4%N])]>
  (<[4%N := TilePane 1]> ∅))).

(** A tile already in simplified form: a pane, or a container whose
    children are all in simplified form and on which no pruning rule
    fires.  Being inductive, the tiles reached from it form no cycle. *)
Inductive simplified {Pane} (options : SimplificationOptions) (ts : gmap TileId (Tile Pane))
    : TileId -> Prop :=
  | simplified_pane it p :
      ts !! it = Some (TilePane p) -> simplified options ts it
  | simplified_container it c :
      ts !! it = Some (TileContainer c) ->
      (forall ch, ch ∈ container_children c -> simplified options ts ch) ->
      simplify_decision options c ts = Keep ->
      simplified options ts it.

(** How [gc_tile_id] changes a tile it keeps: a pane stays as it was
    and is one [retain_pane] accepts; a container keeps its kind and its
    other fields, and keeps, in order, a sub-list of its children. *)
Definition gc_shrunk {Pane} (retain_pane : Pane -> bool) (t t' : Tile Pane) : Prop :=
  match t, t' with
  | TilePane p, TilePane p' => p' = p /\ retain_pane p = true
  | TileContainer c, TileContainer c' =>
      exists cs, cs `sublist_of` container_children c /\ c' = container_set_children c cs
  | _, _ => False
  end.

(** Two tiles of the same kind: the same pane, or containers of the same
    layout. *)
Definition same_kind {Pane} (t t' : Tile Pane) : Prop :=
  match t, t' with
  | TilePane p, TilePane p' => p' = p
  | TileContainer c, TileContainer c' => container_layout c' = container_layout c
  | _, _ => False
  end.

(** The state of a [gc_tile_id] walk started on [ts0] at [root]: every
    visited id is a key of [ts0] reachable from [root]; an id not visited
    has its tile of [ts0]; a visited id still in the arena holds a
    shrunk form of its tile of [ts0]. *)
Definition gc_inv {Pane} (retain_pane : Pane -> bool) (ts0 : gmap TileId (Tile Pane))
    (root : TileId) (v : gset TileId) (ts : gmap TileId (Tile Pane)) : Prop :=
  (forall k, k ∈ v -> reachable ts0 root k /\ is_Some (ts0 !! k)) /\
  (forall k, k ∉ v -> ts !! k = ts0 !! k) /\
  (forall k t', k ∈ v -> ts !! k = Some t' ->
     exists t, ts0 !! k = Some t /\ gc_shrunk retain_pane t t').

(** [simplify] keeps the kind of every tile it leaves: each tile of
    [s'] is a tile of [s] of the same kind. *)
Definition kind_frame {Pane} (s s' : gmap TileId (Tile Pane)) : Prop :=
  forall k t', s' !! k = Some t' -> exists t, s !! k = Some t /\ same_kind t t'.

(** What a [layout_tile] walk may change: the arena comes back as it
    was; the rectangles of ids that are not keys stay as they were; no
    rectangle is dropped. *)
Definition layout_frame {Pane} (s s' : gmap TileId (Tile Pane) * gmap TileId Rect) : Prop :=
  s'.1 = s.1 /\ (forall k, s.1 !! k = None -> s'.2 !! k = s.2 !! k) /\
  (forall k, is_Some (s.2 !! k) -> is_Some (s'.2 !! k)).

(** What a [tile_ui] walk keeps: the arena, the rectangles, whether drop
    detection is enabled, and the dragged tile of the drop context. *)
Definition ui_frame {Pane} (s s' : UiState Pane) : Prop :=
  ui_tiles s' = ui_tiles s /\ ui_rects s' = ui_rects s /\
  enabled (ui_drop s') = enabled (ui_drop s) /\
  dragged_tile_id (ui_drop s') = dragged_tile_id (ui_drop s).

(** A rectangle and a ui state over [tabs_example_arena] for the
    examples; [dragged] is the tile being dragged. *)
Definition example_rect : Rect := Rect_from_min_max Pos2_ZERO {| x := 100; y := 50 |}.

Definition example_ui_state (dragged : option TileId) : UiState nat :=
  {| ui_tiles := tabs_example_arena;
     ui_rects := <[1%N := example_rect]> (<[2%N := example_rect]>
                   (<[3%N := example_rect]> (<[4%N := example_rect]> ∅)));
     ui_drop := {| enabled := true; dragged_tile_id := dragged; candidates := [] |};
     ui_dragged := None |}.

(** * Theorems *)

Example insert_tabs_into_pane_example :
  fst (insert {| parent_id := 1; insertion := InsTabs 0 |} 2%N
         (<[1%N := TilePane 10]> (<[2%N := TilePane 20]> ∅)) 3%N)
  = <[1%N := TileContainer (ContainerTabs {| tabs_children := [2%N; 3%N]; tabs_active := 2%N |})]>
      (<[2%N := TilePane 20]> (<[3%N := TilePane 10]> ∅)).
Proof. vm_compute. reflexivity. Qed.

(** ** Insertion *)

Lemma vec_insert_sublist {A} (l : list A) i v : l `sublist_of` vec_insert l i v.
Proof.
  unfold vec_insert. rewrite <- (take_drop i l) at 1.
  apply sublist_app; [reflexivity | by apply sublist_cons].
Qed.

(** C1 (as the spec words it): wrapping a Pane root with [Tabs(0)] does
    not give children [P1; P2]. *)
Lemma insert_tabs_order_counterexample :
  let ts' := fst (insert {| parent_id := 1; insertion := InsTabs 0 |} 2%N
                    (<[1%N := TilePane 10]> (<[2%N := TilePane 20]> ∅)) 3%N) in
  ~ (exists k, ts' !! 1%N = Some (TileContainer (ContainerTabs
                             {| tabs_children := [k; 2%N]; tabs_active := 2%N |}))
               /\ ts' !! k = Some (TilePane 10)).
Proof.
  intros ts' [k [Hroot _]]. vm_compute in Hroot.
  injection Hroot as Hk H32. discriminate H32.
Qed.

(** C1 (amended): inserting with [Tabs(0)] under a parent holding a Pane
    [p1] turns the parent id into a Tabs container with children
    [[child; fresh]], where [fresh] is the fresh id now holding the
    pane, and makes the inserted child active. *)
Theorem insert_tabs_wraps_pane {Pane} (ts : gmap TileId (Tile Pane)) root p1 child rng :
  ts !! root = Some (TilePane p1) -> ts !! rng = None ->
  let ts' := fst (insert {| parent_id := root; insertion := InsTabs 0 |} child ts rng) in
  ts' !! root = Some (TileContainer (ContainerTabs
                   {| tabs_children := [child; rng]; tabs_active := child |}))
  /\ ts' !! rng = Some (TilePane p1).
Proof.
  intros Hroot Hrng ts'. subst ts'.
  assert (root <> rng) by congruence.
  unfold insert; simpl. rewrite Hroot. simpl.
  split; [by rewrite lookup_insert_eq |].
  rewrite lookup_insert_ne by done. by rewrite lookup_insert_eq.
Qed.

Lemma insert_tabs_wraps_pane_witness :
  ((<[1%N := TilePane 10]> (<[2%N := TilePane 20]> ∅) : gmap TileId (Tile nat)) !! 1%N
     = Some (TilePane 10)
   /\ (<[1%N := TilePane 10]> (<[2%N := TilePane 20]> ∅) : gmap TileId (Tile nat)) !! 3%N = None)
  /\ (let ts' := fst (insert {| parent_id := 1; insertion := InsTabs 0 |} 2%N
                       (<[1%N := TilePane 10]> (<[2%N := TilePane 20]> ∅)) 3%N) in
      ts' !! 1%N = Some (TileContainer (ContainerTabs
                     {| tabs_children := [2%N; 3%N]; tabs_active := 2%N |}))
      /\ ts' !! 3%N = Some (TilePane 10)).
Proof.
  split; [split; reflexivity |].
  apply (insert_tabs_wraps_pane _ 1%N 10 2%N 3%N); reflexivity.
Defined.

Lemma grids_ok_insert {Pane} (ts : gmap TileId (Tile Pane)) k t :
  grids_ok ts ->
  (forall g, t = TileContainer (ContainerGrid g) -> locations_injective (grid_locations g)) ->
  grids_ok (<[k := t]> ts).
Proof.
  intros Hts Ht id g. rewrite lookup_insert. case_decide.
  - intros E. injection E as E. eauto.
  - eauto.
Qed.

Lemma grids_ok_delete {Pane} (ts : gmap TileId (Tile Pane)) k :
  grids_ok ts -> grids_ok (delete k ts).
Proof.
  intros Hts id g. rewrite lookup_delete. case_decide; [discriminate | eauto].
Qed.

Lemma evict_then_insert_injective (locs : gmap TileId GridLoc) child loc :
  locations_injective locs ->
  locations_injective
    (<[child := loc]> (filter (fun kv : TileId * GridLoc => kv.2 <> loc) locs)).
Proof.
  intros Hinj a b l Ha Hb.
  rewrite lookup_insert in Ha. rewrite lookup_insert in Hb.
  destruct (decide (child = a)) as [<-|Ea]; destruct (decide (child = b)) as [<-|Eb];
    try done.
  - apply map_lookup_filter_Some in Hb as [_ Hb]. simpl in Hb. congruence.
  - apply map_lookup_filter_Some in Ha as [_ Ha]. simpl in Ha. congruence.
  - apply map_lookup_filter_Some in Ha as [Ha _].
    apply map_lookup_filter_Some in Hb as [Hb _]. eauto.
Qed.

Lemma singleton_locations_injective child loc :
  locations_injective (<[child := loc]> (∅ : gmap TileId GridLoc)).
Proof.
  intros a b l Ha Hb. rewrite lookup_insert in Ha, Hb.
  case_decide; case_decide; subst; done.
Qed.

Lemma insert_grids_ok {Pane} ip child (ts : gmap TileId (Tile Pane)) rng :
  grids_ok ts -> grids_ok (fst (insert ip child ts rng)).
Proof.
  intros Hts. unfold insert.
  destruct (ts !! parent_id ip) as [tile|] eqn:Ht; [| done].
  assert (Htile : forall g, tile = TileContainer (ContainerGrid g) ->
                  locations_injective (grid_locations g)) by (intros g ->; eauto).
  pose proof (grids_ok_delete ts (parent_id ip) Hts) as Hdel.
  destruct (insertion ip) as [i|i|i|loc];
    destruct tile as [p|[t|[[] ch]|g]]; simpl;
    repeat apply grids_ok_insert; try done;
    intros g' E; try discriminate E; injection E as <-; simpl;
    auto using singleton_locations_injective.
  apply evict_then_insert_injective. eauto.
Qed.

Lemma insert_all_grids_ok {Pane} ops (ts : gmap TileId (Tile Pane)) rng :
  grids_ok ts -> grids_ok (fst (insert_all ops ts rng)).
Proof.
  revert ts rng. induction ops as [|[ip c] ops IH]; intros ts rng Hts; simpl; [done |].
  destruct (insert ip c ts rng) as [ts' rng'] eqn:E. apply IH.
  change ts' with (fst (ts', rng')). rewrite <- E. by apply insert_grids_ok.
Qed.

Lemma insert_grid_into_grid {Pane} (ts : gmap TileId (Tile Pane)) pid g loc child rng :
  ts !! pid = Some (TileContainer (ContainerGrid g)) ->
  exists g', fst (insert {| parent_id := pid; insertion := InsGrid loc |} child ts rng) !! pid
             = Some (TileContainer (ContainerGrid g'))
    /\ grid_children g' = grid_children g ++ [child]
    /\ grid_locations g' !! child = Some loc
    /\ (forall o, o <> child -> grid_locations g' !! o =
          match grid_locations g !! o with
          | Some l => if decide (l = loc) then None else Some l
          | None => None
          end).
Proof.
  intros Hg. unfold insert; simpl. rewrite Hg. simpl.
  eexists. rewrite lookup_insert_eq. split; [reflexivity |]. simpl.
  split; [reflexivity |]. split; [by rewrite lookup_insert_eq |].
  intros o Ho. rewrite lookup_insert_ne by done. rewrite map_lookup_filter.
  destruct (grid_locations g !! o) as [l|]; simpl; [| done].
  destruct (decide (l = loc)) as [->|Hl].
  - case_guard; naive_solver.
  - case_guard; naive_solver.
Qed.

(** C2: every [insert] keeps the locations of every Grid of the arena
    free of two children at one location, so any sequence of insertions
    does; inserting into a Grid at [loc] maps the child to [loc], drops
    only the location of a prior occupant of [loc] and appends the child
    to the children.  On the spec's scenario: A=1 at (0,0), B=2 at (0,1),
    inserting C=3 at (0,0) into the Grid 10. *)
Theorem grid_insert_locations_unique {Pane : Type} :
  (forall ops (ts : gmap TileId (Tile Pane)) rng,
     grids_ok ts -> grids_ok (fst (insert_all ops ts rng)))
  /\ (forall (ts : gmap TileId (Tile Pane)) pid g loc child rng,
     ts !! pid = Some (TileContainer (ContainerGrid g)) ->
     exists g', fst (insert {| parent_id := pid; insertion := InsGrid loc |} child ts rng) !! pid
                = Some (TileContainer (ContainerGrid g'))
       /\ grid_children g' = grid_children g ++ [child]
       /\ grid_locations g' !! child = Some loc
       /\ (forall o, o <> child -> grid_locations g' !! o =
             match grid_locations g !! o with
             | Some l => if decide (l = loc) then None else Some l
             | None => None
             end))
  /\ fst (insert {| parent_id := 10; insertion := InsGrid {| col := 0; row := 0 |} |} 3%N
           ({[10%N := TileContainer (ContainerGrid
              {| grid_children := [1%N; 2%N];
                 grid_locations := {[1%N := {| col := 0; row := 0 |};
                                     2%N := {| col := 0; row := 1 |}]} |})]}
             : gmap TileId (Tile Pane)) 20%N)
     = {[10%N := TileContainer (ContainerGrid
           {| grid_children := [1%N; 2%N; 3%N];
              grid_locations := {[2%N := {| col := 0; row := 1 |};
                                  3%N := {| col := 0; row := 0 |}]} |})]}.
Proof.
  split; [exact insert_all_grids_ok |].
  split; [exact insert_grid_into_grid |].
  vm_compute. reflexivity.
Qed.

Lemma grid_insert_locations_unique_witness :
  grids_ok (∅ : gmap TileId (Tile nat)) /\
  grids_ok (fst (insert_all
    [({| parent_id := 1; insertion := InsGrid {| col := 0; row := 0 |} |}, 2%N);
     ({| parent_id := 1; insertion := InsGrid {| col := 0; row := 0 |} |}, 3%N)]
    {[1%N := TilePane 7]} 5%N)).
Proof.
  split; [intros id g H; discriminate H |].
  apply (proj1 (@grid_insert_locations_unique nat)).
  intros id g H. apply lookup_singleton_Some in H as [_ H]. discriminate H.
Defined.

(** C7: when [parent_id] is a key and the supply's next id is unused,
    [insert] leaves [parent_id] a key and keeps the parent's former tile:
    either in place (same container kind, former children kept in order)
    or moved to the fresh id, which is a child of the new tile at
    [parent_id]. *)
Theorem insert_preserves_parent {Pane} (ts : gmap TileId (Tile Pane)) ip child rng T :
  ts !! parent_id ip = Some T -> ts !! rng = None ->
  let ts' := fst (insert ip child ts rng) in
  exists T', ts' !! parent_id ip = Some T' /\
    ((exists c c', T = TileContainer c /\ T' = TileContainer c'
        /\ container_layout c = container_layout c'
        /\ container_children c `sublist_of` container_children c')
     \/ (ts' !! rng = Some T /\ rng ∈ tile_children T')).
Proof.
  intros Ht Hrng ts'. subst ts'.
  assert (parent_id ip <> rng) by congruence.
  unfold insert. rewrite Ht.
  destruct (insertion ip) as [i|i|i|loc];
    destruct T as [p|[t|[[] ch]|g]]; simpl;
    eexists; (split; [by rewrite lookup_insert_eq |]);
    first
      [ left; do 2 eexists; split; [reflexivity |]; split; [reflexivity |];
        split; [reflexivity |]; simpl;
        first [ apply vec_insert_sublist | by apply sublist_inserts_r ]
      | right; split;
        [ rewrite lookup_insert_ne by done; by rewrite lookup_insert_eq
        | simpl; first [ set_solver
                        | unfold vec_insert; destruct (Nat.min i 1) as [|[|k]]; simpl; set_solver ] ] ].
Qed.

Lemma insert_preserves_parent_witness :
  let ts := (<[1%N := TilePane 10]> (<[2%N := TilePane 20]> ∅) : gmap TileId (Tile nat)) in
  (ts !! 1%N = Some (TilePane 10) /\ ts !! 3%N = None) /\
  let ts' := fst (insert {| parent_id := 1; insertion := InsVertical 4 |} 2%N ts 3%N) in
  exists T', ts' !! 1%N = Some T' /\
    ((exists c c', TilePane 10 = TileContainer c /\ T' = TileContainer c'
        /\ container_layout c = container_layout c'
        /\ container_children c `sublist_of` container_children c')
     \/ (ts' !! 3%N = Some (TilePane 10) /\ 3%N ∈ tile_children T')).
Proof.
  intros ts. split; [split; reflexivity |].
  apply (insert_preserves_parent ts {| parent_id := 1; insertion := InsVertical 4 |}
           2%N 3%N (TilePane 10)); reflexivity.
Defined.

(** C10: with no tile at [parent_id], [insert] changes nothing: the arena
    and the id supply are returned as they were. *)
Theorem insert_missing_parent_noop {Pane} (ts : gmap TileId (Tile Pane)) ip child rng :
  ts !! parent_id ip = None -> insert ip child ts rng = (ts, rng).
Proof. intros H. unfold insert. by rewrite H. Qed.

Lemma insert_missing_parent_noop_witness :
  (<[1%N := TilePane 10]> ∅ : gmap TileId (Tile nat)) !! 5%N = None /\
  insert {| parent_id := 5; insertion := InsTabs 0 |} 1%N
    (<[1%N := TilePane 10]> ∅ : gmap TileId (Tile nat)) 7%N
  = (<[1%N := TilePane 10]> ∅, 7%N).
Proof.
  split; [reflexivity |]. apply insert_missing_parent_noop. reflexivity.
Defined.

(** C9 (as the spec words it): with debug assertions enabled, [rect] on
    an id without a cached rectangle panics in [debug_assert!]. *)
Lemma rect_missing_debug_counterexample :
  rect true ∅ 5%N = None.
Proof. reflexivity. Qed.

(** C9 (amended): for an id without a cached rectangle, [rect] returns
    the zero rectangle from (0,0) to (0,0) when debug assertions are
    disabled, and panics in its [debug_assert!] when they are enabled. *)
Theorem rect_missing_fallback (rects : gmap TileId Rect) tile_id :
  rects !! tile_id = None ->
  rect false rects tile_id = Some (Rect_from_min_max Pos2_ZERO Pos2_ZERO)
  /\ rect true rects tile_id = None.
Proof. intros H. unfold rect, try_rect. rewrite H. split; reflexivity. Qed.

Lemma rect_missing_fallback_witness :
  (∅ : gmap TileId Rect) !! 5%N = None /\
  rect false ∅ 5%N = Some (Rect_from_min_max Pos2_ZERO Pos2_ZERO)
  /\ rect true ∅ 5%N = None.
Proof. split; [reflexivity |]. apply rect_missing_fallback. reflexivity. Defined.

(** ** Garbage collection *)

(** C3: on an arena whose root Linear container lists the pane 2 twice,
    [gc_root] drops the tile 2 from the arena while the root still lists
    it once: 2 is reachable from the root and not a key. *)
Theorem gc_duplicate_child_dangles :
  let ts : gmap TileId (Tile nat) :=
    <[1%N := TileContainer (ContainerLinear {| linear_dir := Horizontal;
                                               linear_children := [2%N; 2%N] |})]>
      (<[2%N := TilePane 0]> ∅) in
  gc_root (fun _ => true) 1%N ts
    = Some {[1%N := TileContainer (ContainerLinear {| linear_dir := Horizontal;
                                                     linear_children := [2%N] |})]}
  /\ match gc_root (fun _ => true) 1%N ts with
     | Some ts' => reachable ts' 1%N 2%N /\ ts' !! 2%N = None
     | None => False
     end.
Proof.
  intros ts.
  assert (E : gc_root (fun _ => true) 1%N ts
    = Some {[1%N := TileContainer (ContainerLinear {| linear_dir := Horizontal;
                                                     linear_children := [2%N] |})]})
    by (vm_compute; reflexivity).
  split; [exact E |]. rewrite E. split.
  - eapply reachable_child; [apply reachable_root | | ].
    + by rewrite lookup_singleton_eq.
    + simpl. set_solver.
  - reflexivity.
Qed.

(** ** Simplification *)

(** C4 (as the spec words it): a single-child Tabs container is replaced
    by its child on the first run; the second run from the same id finds
    no tile there and answers [Remove], not [Replace]. *)
Lemma simplify_twice_counterexample :
  let ts : gmap TileId (Tile nat) :=
    <[1%N := TileContainer (ContainerTabs {| tabs_children := [2%N]; tabs_active := 2%N |})]>
      (<[2%N := TilePane 0]> ∅) in
  match run_simplify opts_single_tabs 1%N ts with
  | Some (a1, ts1) => run_simplify opts_single_tabs 1%N ts1 <> Some (a1, ts1)
  | None => False
  end.
Proof. vm_compute. discriminate. Qed.

(** C5: the Tabs rules of [simplify], read on the children list [cs] left
    by the simplification of the children and on the arena [ts1] at that
    point. *)
Theorem simplify_tabs_policy {Pane} opts fuel it (ts : gmap TileId (Tile Pane)) t acts ts1 :
  ts !! it = Some (TileContainer (ContainerTabs t)) ->
  visit_children (simplify opts fuel) (tabs_children t) (delete it ts) = Some (acts, ts1) ->
  let cs := simplified_children acts in
  let a := fst <$> simplify opts (S fuel) it ts in
  (prune_empty_tabs opts = true -> cs = [] -> a = Some Remove)
  /\ (forall child, prune_single_child_tabs opts = true -> cs = [child] ->
        a = Some (if all_panes_must_have_tabs opts && is_pane (ts1 !! child)
                  then Keep else Replace child))
  /\ (forall child, prune_single_child_tabs opts = true -> cs = [child] ->
        all_panes_must_have_tabs opts = true ->
        (exists p, ts1 !! child = Some (TilePane p)) -> a = Some Keep)
  /\ (forall child c, prune_single_child_tabs opts = true -> cs = [child] ->
        ts1 !! child = Some (TileContainer c) -> a = Some (Replace child)).
Proof.
  intros Ht Hv cs a. subst a.
  assert (Ha : forall child, prune_single_child_tabs opts = true -> cs = [child] ->
            fst <$> simplify opts (S fuel) it ts
            = Some (if all_panes_must_have_tabs opts && is_pane (ts1 !! child)
                    then Keep else Replace child)).
  { intros child Hs Hcs. simpl. rewrite Ht. simpl. rewrite Hv.
    unfold simplify_decision. simpl. fold cs. rewrite Hcs, Hs. simpl.
    destruct (prune_empty_tabs opts), (all_panes_must_have_tabs opts),
      (ts1 !! child) as [[]|]; reflexivity. }
  split; [| split; [exact Ha | split]].
  - intros He Hcs. simpl. rewrite Ht. simpl. rewrite Hv.
    unfold simplify_decision. simpl. fold cs. rewrite Hcs, He. reflexivity.
  - intros child Hs Hcs Hp [p Hpane]. rewrite (Ha child Hs Hcs), Hp, Hpane. reflexivity.
  - intros child c Hs Hcs Hc. rewrite (Ha child Hs Hcs), Hc.
    destruct (all_panes_must_have_tabs opts); reflexivity.
Qed.

Lemma simplify_tabs_policy_witness :
  let ts : gmap TileId (Tile nat) :=
    <[1%N := TileContainer (ContainerTabs {| tabs_children := [2%N]; tabs_active := 2%N |})]>
      (<[2%N := TilePane 0]> ∅) in
  (ts !! 1%N = Some (TileContainer (ContainerTabs {| tabs_children := [2%N]; tabs_active := 2%N |}))
   /\ visit_children (simplify opts_all 2) [2%N] (delete 1%N ts)
      = Some ([(2%N, Keep)], <[2%N := TilePane 0]> ∅))
  /\ (let cs := simplified_children [(2%N, Keep)] in
      let a := fst <$> simplify opts_all 3 1%N ts in
      (prune_empty_tabs opts_all = true -> cs = [] -> a = Some Remove)
      /\ (forall child, prune_single_child_tabs opts_all = true -> cs = [child] ->
            a = Some (if all_panes_must_have_tabs opts_all
                         && is_pane ((<[2%N := TilePane 0]> ∅ : gmap TileId (Tile nat)) !! child)
                      then Keep else Replace child))
      /\ (forall child, prune_single_child_tabs opts_all = true -> cs = [child] ->
            all_panes_must_have_tabs opts_all = true ->
            (exists p, (<[2%N := TilePane 0]> ∅ : gmap TileId (Tile nat)) !! child = Some (TilePane p))
            -> a = Some Keep)
      /\ (forall child c, prune_single_child_tabs opts_all = true -> cs = [child] ->
            (<[2%N := TilePane 0]> ∅ : gmap TileId (Tile nat)) !! child = Some (TileContainer c)
            -> a = Some (Replace child))).
Proof.
  intros ts. split; [split; vm_compute; reflexivity |].
  apply (simplify_tabs_policy opts_all 2 1%N ts
           {| tabs_children := [2%N]; tabs_active := 2%N |} [(2%N, Keep)]
           (<[2%N := TilePane 0]> ∅)); vm_compute; reflexivity.
Defined.

(** *** Generic facts about the visits of the children *)

Lemma visit_children_preserve {S A : Type} (f : TileId -> S -> option (A * S))
    (R : S -> S -> Prop) :
  (forall s, R s s) -> (forall s1 s2 s3, R s1 s2 -> R s2 s3 -> R s1 s3) ->
  (forall c s a s', f c s = Some (a, s') -> R s s') ->
  forall cs s acts s', visit_children f cs s = Some (acts, s') -> R s s'.
Proof.
  intros Hrefl Htrans Hf cs. induction cs as [|c cs IH]; intros s acts s' H; simpl in H.
  - injection H as _ <-. apply Hrefl.
  - destruct (f c s) as [[a s1]|] eqn:Ef; [| discriminate].
    destruct (visit_children f cs s1) as [[acts1 s2]|] eqn:Ev; [| discriminate].
    injection H as _ <-. eapply Htrans; [eapply Hf; exact Ef | eapply IH; exact Ev].
Qed.

Lemma visit_children_fst {S A : Type} (f : TileId -> S -> option (A * S)) cs s acts s' :
  visit_children f cs s = Some (acts, s') -> map fst acts = cs.
Proof.
  revert s acts s'. induction cs as [|c cs IH]; intros s acts s' H; simpl in H.
  - by injection H as <- _.
  - destruct (f c s) as [[a s1]|]; [| discriminate].
    destruct (visit_children f cs s1) as [[acts1 s2]|] eqn:Ev; [| discriminate].
    injection H as <- _. simpl. f_equal. eauto.
Qed.

(** *** Reachability *)

Lemma reachable_from_child {Pane} (ts : gmap TileId (Tile Pane)) y c ch z :
  ts !! y = Some (TileContainer c) -> ch ∈ container_children c ->
  reachable ts ch z -> reachable ts y z.
Proof.
  intros Hy Hch Hr. induction Hr as [|a c' b Ha IH Hc' Hb].
  - eapply reachable_child; [apply reachable_root | exact Hy | exact Hch].
  - eapply reachable_child; eauto.
Qed.

Lemma reachable_first_step {Pane} (ts : gmap TileId (Tile Pane)) y z :
  reachable ts y z ->
  y = z \/ exists c ch, ts !! y = Some (TileContainer c) /\ ch ∈ container_children c
                        /\ reachable ts ch z.
Proof.
  intros Hr. induction Hr as [|a c b Ha IH Hc Hb]; [by left |].
  right. destruct IH as [<- | (c' & ch & Hy & Hch & Hr)].
  - exists c, b. repeat split; [done | done | apply reachable_root].
  - exists c', ch. repeat split; [done | done |]. eapply reachable_child; eauto.
Qed.

(** *** Tiles in simplified form *)

Section SimplifyFacts.
Context {Pane : Type}.
Context (options : SimplificationOptions).
Implicit Types ts : gmap TileId (Tile Pane).

Lemma simplified_present ts y : simplified options ts y -> is_Some (ts !! y).
Proof. intros []; eauto. Qed.

Lemma simplified_reach ts y z :
  simplified options ts y -> reachable ts y z -> simplified options ts z.
Proof.
  intros Hy Hr. induction Hr as [|a c b Ha IH Hc Hb]; [done |].
  inversion IH as [? p Hp | ? c' Hc' Hch _]; subst; [congruence |].
  rewrite Hc in Hc'. injection Hc' as <-. auto.
Qed.

Lemma simplified_acyclic ts y :
  simplified options ts y ->
  forall c ch, ts !! y = Some (TileContainer c) -> ch ∈ container_children c ->
  ~ reachable ts ch y.
Proof.
  induction 1 as [it p Hp | it c0 Hc0 Hch IH Hdec]; intros c ch Hy Hin Hr; [congruence |].
  rewrite Hc0 in Hy. injection Hy as <-.
  destruct (reachable_first_step ts ch it Hr) as [-> | (c1 & ch1 & Hc1 & Hin1 & Hr1)].
  - eapply (IH it Hin c0 it Hc0 Hin). apply reachable_root.
  - eapply (IH ch Hin c1 ch1 Hc1 Hin1). eapply reachable_child; eauto.
Qed.

Lemma simplify_decision_agree c ts ts' :
  (forall ch, ch ∈ container_children c -> ts' !! ch = ts !! ch) ->
  simplify_decision options c ts' = simplify_decision options c ts.
Proof.
  intros Hag. unfold simplify_decision.
  destruct (container_children c) as [|ch0 [|ch1 cs]] eqn:Ecs; simpl;
    rewrite ?andb_false_r; [reflexivity | | reflexivity].
  rewrite (Hag ch0) by set_solver. reflexivity.
Qed.

Lemma simplified_frame ts ts' y :
  simplified options ts y ->
  (forall z, reachable ts y z -> ts' !! z = ts !! z) ->
  simplified options ts' y.
Proof.
  induction 1 as [it p Hp | it c Hc Hch IH Hdec]; intros Hag.
  - eapply simplified_pane. rewrite Hag by apply reachable_root. exact Hp.
  - eapply simplified_container.
    + rewrite Hag by apply reachable_root. exact Hc.
    + intros ch Hin. apply IH; [done |].
      intros z Hz. apply Hag. eapply reachable_from_child; eauto.
    + rewrite <- Hdec. apply simplify_decision_agree.
      intros ch Hin. apply Hag. eapply reachable_from_child; eauto. apply reachable_root.
Qed.

Lemma simplified_children_keep (cs : list TileId) :
  simplified_children (map (fun ch => (ch, Keep)) cs) = cs.
Proof. induction cs as [|c cs IH]; simpl; [done | by rewrite IH]. Qed.

Lemma simplified_active_keep (cs : list TileId) active :
  simplified_active active (map (fun ch => (ch, Keep)) cs) = active.
Proof.
  unfold simplified_active. revert active.
  induction cs as [|c cs IH]; intros active; simpl; [done | apply IH].
Qed.

Lemma container_simplify_children_keep c :
  container_simplify_children c (map (fun ch => (ch, Keep)) (container_children c)) = c.
Proof.
  destruct c as [[cs a]|[d cs]|[cs l]]; simpl;
    rewrite ?simplified_children_keep, ?simplified_active_keep; reflexivity.
Qed.

Lemma simplify_decision_replace c ts r :
  simplify_decision options c ts = Replace r -> r ∈ container_children c.
Proof.
  unfold simplify_decision.
  destruct (container_children c) as [|ch0 [|ch1 cs]] eqn:Ecs; simpl;
    rewrite ?andb_false_r;
    repeat (case_match || case_decide); simpl; intros Hr; try discriminate Hr;
    injection Hr as <-; set_solver.
Qed.

End SimplifyFacts.

Lemma size_le_of_dom {A} (m m' : gmap TileId A) :
  (forall z, m !! z = None -> m' !! z = None) -> size m' <= size m.
Proof.
  intros H. rewrite <- (size_dom (D := gset TileId) m'), <- (size_dom (D := gset TileId) m).
  apply subseteq_size. intros z Hz. apply elem_of_dom. apply elem_of_dom in Hz.
  destruct (m !! z) eqn:E; [eauto |]. rewrite (H z E) in Hz. by destruct Hz.
Qed.

Lemma container_children_simplify c acts :
  container_children (container_simplify_children c acts) = simplified_children acts.
Proof. by destruct c. Qed.

(** *** The run of [simplify] *)

Section SimplifyRun.
Context {Pane : Type}.
Context (options : SimplificationOptions).
Implicit Types ts : gmap TileId (Tile Pane).

Lemma simplify_stable ts x :
  simplified options ts x ->
  forall f ts0 r, (forall z, reachable ts x z -> ts0 !! z = ts !! z) ->
  simplify options f x ts0 = Some r -> r = (Keep, ts0).
Proof.
  intros Hx. induction Hx as [it p Hp | it c Hc Hch IH Hdec];
    intros f ts0 r Hag Hrun; destruct f as [|f]; try discriminate Hrun.
  - assert (Hlk : ts0 !! it = Some (TilePane p)) by (rewrite Hag by apply reachable_root; done).
    simpl in Hrun. rewrite Hlk in Hrun. injection Hrun as <-.
    by rewrite insert_delete_eq, insert_id.
  - assert (Hsx : simplified options ts it) by (eapply simplified_container; eauto).
    assert (Hlk : ts0 !! it = Some (TileContainer c))
      by (rewrite Hag by apply reachable_root; done).
    assert (Hloop : forall cs, (forall ch, ch ∈ cs -> ch ∈ container_children c) ->
      forall acts s', visit_children (simplify options f) cs (delete it ts0) = Some (acts, s') ->
      acts = map (fun ch => (ch, Keep)) cs /\ s' = delete it ts0).
    { induction cs as [|ch cs IHcs]; intros Hsub acts s' Hv; simpl in Hv.
      - by injection Hv as <- <-.
      - destruct (simplify options f ch (delete it ts0)) as [[a s1]|] eqn:E1; [| discriminate].
        assert (Hin : ch ∈ container_children c) by (apply Hsub; set_solver).
        assert (E : (a, s1) = (Keep, delete it ts0)).
        { eapply IH; [exact Hin | | exact E1].
          intros z Hz. rewrite lookup_delete_ne.
          + apply Hag. eapply reachable_from_child; eauto.
          + intros ->. eapply simplified_acyclic; eauto. }
        injection E as -> ->.
        destruct (visit_children (simplify options f) cs (delete it ts0)) as [[acts1 s2]|] eqn:E2;
          [| discriminate].
        injection Hv as <- <-.
        destruct (IHcs (fun ch' H' => Hsub ch' ltac:(set_solver)) acts1 s2 eq_refl) as [-> ->].
        done. }
    simpl in Hrun. rewrite Hlk in Hrun.
    destruct (visit_children (simplify options f) (container_children c) (delete it ts0))
      as [[acts ts1]|] eqn:Ev; [| discriminate].
    destruct (Hloop _ (fun ch H => H) acts ts1 Ev) as [-> ->].
    rewrite container_simplify_children_keep in Hrun.
    assert (Hd : simplify_decision options c (delete it ts0) = Keep).
    { rewrite <- Hdec. apply simplify_decision_agree. intros ch Hin.
      rewrite lookup_delete_ne.
      - apply Hag. eapply reachable_from_child; eauto. apply reachable_root.
      - intros ->. eapply simplified_acyclic; eauto. apply reachable_root. }
    rewrite Hd in Hrun. injection Hrun as <-.
    by rewrite insert_delete_eq, insert_id.
Qed.

Lemma simplify_dom f x ts a ts' :
  simplify options f x ts = Some (a, ts') ->
  (forall z, ts !! z = None -> ts' !! z = None) /\ (a <> Keep -> ts' !! x = None).
Proof.
  revert x ts a ts'. induction f as [|f IH]; intros x ts a ts' Hrun; [discriminate |].
  simpl in Hrun. destruct (ts !! x) as [tile|] eqn:Hx.
  - destruct tile as [p|c].
    + injection Hrun as <- <-. split; [| done].
      intros z Hz. rewrite lookup_insert_ne by congruence.
      rewrite lookup_delete_ne by congruence. done.
    + destruct (visit_children (simplify options f) (container_children c) (delete x ts))
        as [[acts ts2]|] eqn:Ev; [| discriminate].
      assert (Hloop : forall z, delete x ts !! z = None -> ts2 !! z = None).
      { eapply (visit_children_preserve (simplify options f)
                  (fun s s' => forall z, s !! z = None -> s' !! z = None));
          [by auto | by auto | | exact Ev].
        intros ch s a' s' Hs. exact (proj1 (IH _ _ _ _ Hs)). }
      assert (Hx2 : ts2 !! x = None) by (apply Hloop, lookup_delete_eq).
      destruct (simplify_decision options (container_simplify_children c acts) ts2);
        injection Hrun as <- <-; (split; [| done]); intros z Hz;
        rewrite ?lookup_insert_ne by congruence;
        apply Hloop; rewrite lookup_delete_ne by congruence; done.
  - injection Hrun as <- <-. done.
Qed.

Lemma simplify_frame f x ts a ts' :
  simplify options f x ts = Some (a, ts') ->
  forall y, simplified options ts y -> simplified options ts' y.
Proof.
  revert x ts a ts'. induction f as [|f IH]; intros x ts a ts' Hrun y Hy; [discriminate |].
  destruct (classic (reachable ts y x)) as [Hr | Hnr].
  { pose proof (simplified_reach _ _ _ _ Hy Hr) as Hsx.
    pose proof (simplify_stable ts x Hsx (S f) ts (a, ts') (fun _ _ => eq_refl) Hrun) as E.
    injection E as _ ->. done. }
  pose proof Hrun as Hrun0.
  simpl in Hrun. destruct (ts !! x) as [tile|] eqn:Hx; [| by injection Hrun as _ <-].
  assert (Hy1 : simplified options (delete x ts) y).
  { apply (simplified_frame options ts); [done |].
    intros z Hz. rewrite lookup_delete_ne; [done |]. intros ->. done. }
  destruct tile as [p|c].
  - injection Hrun as _ <-. by rewrite insert_delete_eq, insert_id.
  - destruct (visit_children (simplify options f) (container_children c) (delete x ts))
      as [[acts ts2]|] eqn:Ev; [| discriminate].
    assert (Hy2 : simplified options ts2 y).
    { eapply (visit_children_preserve (simplify options f)
                (fun s s' => forall y, simplified options s y -> simplified options s' y));
        [by auto | by auto | | exact Ev | exact Hy1].
      intros ch s a' s' Hs. exact (IH _ _ _ _ Hs). }
    assert (Hx2 : ts2 !! x = None).
    { eapply (visit_children_preserve (simplify options f)
                (fun s s' => forall z, s !! z = None -> s' !! z = None));
        [by auto | by auto | | exact Ev | apply lookup_delete_eq].
      intros ch s a' s' Hs. exact (proj1 (simplify_dom _ _ _ _ _ Hs)). }
    destruct (simplify_decision options (container_simplify_children c acts) ts2);
      injection Hrun as _ <-; try done.
    apply (simplified_frame options ts2); [done |].
    intros z Hz. rewrite lookup_insert_ne; [done |]. intros ->.
    destruct (simplified_present options ts2 z (simplified_reach options ts2 y z Hy2 Hz)).
    congruence.
Qed.

Lemma visit_simplify_results f cs (s : gmap TileId (Tile Pane)) acts s' :
  (forall x ts a ts', simplify options f x ts = Some (a, ts') ->
     (a = Keep -> simplified options ts' x)
     /\ (forall r, a = Replace r -> simplified options ts' r)) ->
  visit_children (simplify options f) cs s = Some (acts, s') ->
  forall ch, ch ∈ simplified_children acts -> simplified options s' ch.
Proof.
  intros Hres. revert s acts s'.
  induction cs as [|c cs IHcs]; intros s acts s' Hv ch Hin; simpl in Hv.
  - injection Hv as <- _. simpl in Hin. set_solver.
  - destruct (simplify options f c s) as [[a s1]|] eqn:E1; [| discriminate].
    destruct (visit_children (simplify options f) cs s1) as [[acts1 s2]|] eqn:E2;
      [| discriminate].
    injection Hv as <- <-. simpl in Hin. apply elem_of_app in Hin as [Hin | Hin].
    + assert (Hs1 : simplified options s1 ch).
      { destruct (Hres _ _ _ _ E1) as [HK HR].
        destruct a; simpl in Hin; [| set_solver |];
          apply list_elem_of_singleton in Hin as ->; auto. }
      eapply (visit_children_preserve (simplify options f)
                (fun s s' => forall y, simplified options s y -> simplified options s' y));
        [by auto | by auto | | exact E2 | exact Hs1].
      intros ch' t a' t' Ht. exact (simplify_frame _ _ _ _ _ Ht).
    + eapply IHcs; eauto.
Qed.

Lemma simplify_result f x ts a ts' :
  simplify options f x ts = Some (a, ts') ->
  (a = Keep -> simplified options ts' x)
  /\ (forall r, a = Replace r -> simplified options ts' r).
Proof.
  revert x ts a ts'. induction f as [|f IH]; intros x ts a ts' Hrun; [discriminate |].
  pose proof Hrun as Hrun0.
  simpl in Hrun. destruct (ts !! x) as [tile|] eqn:Hx; [| by injection Hrun as <- _].
  destruct tile as [p|c].
  - injection Hrun as <- <-. split; [| done]. intros _.
    eapply simplified_pane. apply lookup_insert_eq.
  - destruct (visit_children (simplify options f) (container_children c) (delete x ts))
      as [[acts ts2]|] eqn:Ev; [| discriminate].
    pose proof (visit_simplify_results f _ _ _ _ IH Ev) as Hkids.
    assert (Hx2 : ts2 !! x = None).
    { eapply (visit_children_preserve (simplify options f)
                (fun s s' => forall z, s !! z = None -> s' !! z = None));
        [by auto | by auto | | exact Ev | apply lookup_delete_eq].
      intros ch s a' s' Hs. exact (proj1 (simplify_dom _ _ _ _ _ Hs)). }
    set (c' := container_simplify_children c acts) in Hrun.
    destruct (simplify_decision options c' ts2) as [| |r] eqn:Ed;
      injection Hrun as <- <-; subst c'.
    + split; [| done]. intros _.
      assert (Hne : forall ch, ch ∈ container_children (container_simplify_children c acts) -> ch <> x).
      { intros ch Hin ->. rewrite container_children_simplify in Hin.
        destruct (simplified_present options ts2 x (Hkids x Hin)). congruence. }
      apply (simplified_container _ _ _ (container_simplify_children c acts));
        [apply lookup_insert_eq | |].
      * intros ch Hin. apply (simplified_frame options ts2).
        { apply Hkids. by rewrite <- (container_children_simplify c). }
        intros z Hz. rewrite lookup_insert_ne; [done |]. intros <-.
        destruct (simplified_present options ts2 x
                    (simplified_reach options ts2 ch x
                       (Hkids ch ltac:(by rewrite <- (container_children_simplify c))) Hz)).
        congruence.
      * rewrite <- Ed. apply simplify_decision_agree.
        intros ch Hin. by rewrite lookup_insert_ne by (apply not_eq_sym, Hne, Hin).
    + done.
    + split; [done |]. intros r' E. injection E as <-.
      apply Hkids. rewrite <- (container_children_simplify c).
      eapply simplify_decision_replace; exact Ed.
Qed.

Lemma simplify_size f x ts a ts' :
  simplify options f x ts = Some (a, ts') -> size ts' <= size ts.
Proof. intros H. apply size_le_of_dom. exact (proj1 (simplify_dom _ _ _ _ _ H)). Qed.

(** With more fuel than tiles, [simplify] always answers: every visit
    that recurses has taken its tile out of the arena first. *)
Lemma simplify_total f x ts :
  size ts < f -> exists r, simplify options f x ts = Some r.
Proof.
  revert x ts. induction f as [|f IH]; intros x ts Hf; [lia |].
  simpl. destruct (ts !! x) as [tile|] eqn:Hx; [| eauto].
  destruct tile as [p|c]; [eauto |].
  assert (Hdel : size (delete x ts) < f).
  { assert (Hs : size (<[x := TileContainer c]> (delete x ts)) = S (size (delete x ts)))
      by (apply map_size_insert_None, lookup_delete_eq).
    rewrite insert_delete_eq, insert_id in Hs by done. lia. }
  assert (Hloop : forall cs (s : gmap TileId (Tile Pane)), size s < f ->
            exists acts s', visit_children (simplify options f) cs s = Some (acts, s')).
  { induction cs as [|ch cs IHcs]; intros s Hs; simpl; [eauto |].
    destruct (IH ch s Hs) as [[a s1] E1]. rewrite E1.
    destruct (IHcs s1) as (acts & s2 & E2).
    { pose proof (simplify_size _ _ _ _ _ E1). lia. }
    rewrite E2. eauto. }
  destruct (Hloop (container_children c) (delete x ts) Hdel) as (acts & ts2 & Ev).
  rewrite Ev. destruct (simplify_decision options _ ts2); eauto.
Qed.

Lemma run_simplify_total x ts : exists r, run_simplify options x ts = Some r.
Proof. apply simplify_total. lia. Qed.

End SimplifyRun.

(** C4 (amended): running [simplify] a second time from the same id, on
    the arena left by the first run, leaves that arena unchanged; it
    answers [Keep] when the first run answered [Keep], and [Remove] when
    the first run answered [Remove] or [Replace] (the first run has taken
    the tile out of the arena). *)
Theorem simplify_idempotent {Pane} options it (ts : gmap TileId (Tile Pane)) :
  match run_simplify options it ts with
  | Some (a1, ts1) =>
      run_simplify options it ts1
      = Some (match a1 with Keep => Keep | _ => Remove end, ts1)
  | None => False
  end.
Proof.
  destruct (run_simplify_total options it ts) as [[a1 ts1] E1]. rewrite E1.
  unfold run_simplify in E1.
  destruct a1 as [| |r].
  - pose proof (proj1 (simplify_result options _ _ _ _ _ E1) eq_refl) as Hs.
    destruct (run_simplify_total options it ts1) as [r2 E2]. rewrite E2.
    unfold run_simplify in E2.
    rewrite (simplify_stable options ts1 it Hs _ ts1 r2 (fun _ _ => eq_refl) E2).
    reflexivity.
  - pose proof (proj2 (simplify_dom options _ _ _ _ _ E1) ltac:(discriminate)) as Hn.
    unfold run_simplify. simpl. by rewrite Hn.
  - pose proof (proj2 (simplify_dom options _ _ _ _ _ E1) ltac:(discriminate)) as Hn.
    unfold run_simplify. simpl. by rewrite Hn.
Qed.

(** *** Termination of the other walks *)

Lemma size_delete_lt {A} (m : gmap TileId A) x v :
  m !! x = Some v -> S (size (delete x m)) = size m.
Proof.
  intros Hx. rewrite <- (map_size_insert_None x v) by apply lookup_delete_eq.
  by rewrite insert_delete_eq, insert_id.
Qed.

Lemma for_each_child_preserve {St : Type} (f : TileId -> St -> option St)
    (R : St -> St -> Prop) :
  (forall s, R s s) -> (forall s1 s2 s3, R s1 s2 -> R s2 s3 -> R s1 s3) ->
  (forall c s s', f c s = Some s' -> R s s') ->
  forall cs s s', for_each_child f cs s = Some s' -> R s s'.
Proof.
  intros Hrefl Htrans Hf cs. induction cs as [|c cs IH]; intros s s' H; simpl in H.
  - injection H as <-. apply Hrefl.
  - destruct (f c s) as [s1|] eqn:Ef; [| discriminate].
    eapply Htrans; [eapply Hf; exact Ef | eapply IH; exact H].
Qed.

Lemma for_each_child_total {St : Type} (f : TileId -> St -> option St) (P : St -> Prop) :
  (forall c s, P s -> exists s', f c s = Some s' /\ P s') ->
  forall cs s, P s -> exists s', for_each_child f cs s = Some s' /\ P s'.
Proof.
  intros Hf cs. induction cs as [|c cs IH]; intros s Hs; simpl; [eauto |].
  destruct (Hf c s Hs) as (s1 & -> & Hs1). eauto.
Qed.

Lemma for_each_child_indexed_total {St : Type} (f : nat -> TileId -> St -> option St)
    (P : St -> Prop) :
  (forall i c s, P s -> exists s', f i c s = Some s' /\ P s') ->
  forall cs i s, P s -> exists s', for_each_child_indexed f i cs s = Some s' /\ P s'.
Proof.
  intros Hf cs. induction cs as [|c cs IH]; intros i s Hs; simpl; [eauto |].
  destruct (Hf i c s Hs) as (s1 & -> & Hs1). eauto.
Qed.

Lemma visit_children_dom {St A V : Type} (get : St -> gmap TileId V)
    (f : TileId -> St -> option (A * St)) :
  (forall c s a s', f c s = Some (a, s') -> forall z, get s !! z = None -> get s' !! z = None) ->
  forall cs s acts s', visit_children f cs s = Some (acts, s') ->
  forall z, get s !! z = None -> get s' !! z = None.
Proof.
  intros Hf cs. induction cs as [|c cs IH]; intros s acts s' H z Hz; simpl in H.
  - by injection H as _ <-.
  - destruct (f c s) as [[a s1]|] eqn:Ef; [| discriminate].
    destruct (visit_children f cs s1) as [[acts1 s2]|] eqn:Ev; [| discriminate].
    injection H as _ <-. eapply IH; [exact Ev | eapply Hf; eauto].
Qed.

Lemma for_each_child_dom {St V : Type} (get : St -> gmap TileId V)
    (f : TileId -> St -> option St) :
  (forall c s s', f c s = Some s' -> forall z, get s !! z = None -> get s' !! z = None) ->
  forall cs s s', for_each_child f cs s = Some s' ->
  forall z, get s !! z = None -> get s' !! z = None.
Proof.
  intros Hf cs. induction cs as [|c cs IH]; intros s s' H z Hz; simpl in H.
  - by injection H as <-.
  - destruct (f c s) as [s1|] eqn:Ef; [| discriminate].
    eapply IH; [exact H | eapply Hf; eauto].
Qed.

Lemma for_each_child_indexed_dom {St V : Type} (get : St -> gmap TileId V)
    (f : nat -> TileId -> St -> option St) :
  (forall i c s s', f i c s = Some s' -> forall z, get s !! z = None -> get s' !! z = None) ->
  forall cs i s s', for_each_child_indexed f i cs s = Some s' ->
  forall z, get s !! z = None -> get s' !! z = None.
Proof.
  intros Hf cs. induction cs as [|c cs IH]; intros i s s' H z Hz; simpl in H.
  - by injection H as <-.
  - destruct (f i c s) as [s1|] eqn:Ef; [| discriminate].
    eapply IH; [exact H | eapply Hf; eauto].
Qed.

Section GcRun.
Context {Pane : Type}.
Context (retain_pane : Pane -> bool).

Lemma gc_tile_id_dom f x v (ts : gmap TileId (Tile Pane)) a v' ts' :
  gc_tile_id retain_pane f x (v, ts) = Some (a, (v', ts')) ->
  forall z, ts !! z = None -> ts' !! z = None.
Proof.
  revert x v ts a v' ts'. induction f as [|f IH]; intros x v ts a v' ts' Hrun;
    [discriminate |].
  simpl in Hrun. intros z Hz.
  destruct (ts !! x) as [tile|] eqn:Hx; [| by injection Hrun as _ _ <-].
  assert (Hd : delete x ts !! z = None).
  { rewrite lookup_delete_ne; [done | congruence]. }
  destruct (decide (x ∈ v)); [by injection Hrun as _ _ <- |].
  destruct tile as [p|c].
  - destruct (retain_pane p); injection Hrun as _ _ <-; [| done].
    rewrite lookup_insert_ne; [done | congruence].
  - destruct (visit_children (gc_tile_id retain_pane f) (container_children c)
                ({[x]} ∪ v, delete x ts)) as [[acts [v2 ts2]]|] eqn:Ev; [| discriminate].
    injection Hrun as _ _ <-. rewrite lookup_insert_ne by congruence.
    refine (visit_children_dom snd (gc_tile_id retain_pane f) _ _ _ _ _ Ev z Hd).
    intros ch s0 a' s1 Hs. destruct s0, s1. exact (IH _ _ _ _ _ _ Hs).
Qed.

Lemma gc_tile_id_total f x v (ts : gmap TileId (Tile Pane)) :
  size ts < f -> exists r, gc_tile_id retain_pane f x (v, ts) = Some r.
Proof.
  revert x v ts. induction f as [|f IH]; intros x v ts Hf; [lia |].
  simpl. destruct (ts !! x) as [tile|] eqn:Hx; [| eauto].
  destruct (decide (x ∈ v)); [eauto |].
  destruct tile as [p|c]; [destruct (retain_pane p); eauto |].
  pose proof (size_delete_lt ts x _ Hx) as Hdel.
  assert (Hloop : forall cs (s : gset TileId * gmap TileId (Tile Pane)), size s.2 < f ->
            exists acts s', visit_children (gc_tile_id retain_pane f) cs s = Some (acts, s')).
  { induction cs as [|ch cs IHcs]; intros [v0 s] Hs; simpl; [eauto |].
    destruct (IH ch v0 s Hs) as [[a [v1 s1]] E1]. rewrite E1.
    destruct (IHcs (v1, s1)) as (acts & s2 & E2).
    { pose proof (size_le_of_dom _ _ (gc_tile_id_dom _ _ _ _ _ _ _ E1)). simpl in *. lia. }
    rewrite E2. eauto. }
  destruct (Hloop (container_children c) ({[x]} ∪ v, delete x ts)) as (acts & [v2 ts2] & Ev).
  { simpl. lia. }
  rewrite Ev. eauto.
Qed.

End GcRun.

Section LayoutRun.
Context {Pane : Type}.
Context (child_rect : Container -> Rect -> nat -> Rect).

Lemma layout_tile_dom f rect x (ts : gmap TileId (Tile Pane)) rects ts' rects' :
  layout_tile child_rect f rect x (ts, rects) = Some (ts', rects') ->
  forall z, ts !! z = None -> ts' !! z = None.
Proof.
  revert rect x ts rects ts' rects'. induction f as [|f IH];
    intros rect x ts rects ts' rects' Hrun; [discriminate |].
  simpl in Hrun. intros z Hz.
  destruct (ts !! x) as [tile|] eqn:Hx; [| by injection Hrun as <- _].
  assert (Hd : delete x ts !! z = None).
  { rewrite lookup_delete_ne; [done | congruence]. }
  destruct tile as [p|c].
  - injection Hrun as <- _. rewrite lookup_insert_ne; [done | congruence].
  - unfold layout_recursive in Hrun.
    destruct (for_each_child_indexed _ 0 (container_children c) (delete x ts, _))
      as [[ts2 rects2]|] eqn:Ev; [| discriminate].
    injection Hrun as <- _. rewrite lookup_insert_ne by congruence.
    refine (for_each_child_indexed_dom fst _ _ _ _ _ _ Ev z Hd).
    intros i ch s0 s1 Hs. destruct s0, s1. exact (IH _ _ _ _ _ _ Hs).
Qed.

Lemma layout_tile_total f rect x (ts : gmap TileId (Tile Pane)) rects :
  size ts < f -> exists r, layout_tile child_rect f rect x (ts, rects) = Some r.
Proof.
  revert rect x ts rects. induction f as [|f IH]; intros rect x ts rects Hf; [lia |].
  simpl. destruct (ts !! x) as [tile|] eqn:Hx; [| eauto].
  destruct tile as [p|c]; [eauto |].
  pose proof (size_delete_lt ts x _ Hx) as Hdel.
  destruct (for_each_child_indexed_total
              (fun i ch => @layout_tile Pane child_rect f (child_rect c rect i) ch)
              (fun s : gmap TileId (Tile Pane) * gmap TileId Rect => size s.1 < f)) with (cs := container_children c) (i := 0)
              (s := (delete x ts, <[x := rect]> rects)) as ([ts2 rects2] & Ev & _).
  { intros i ch [s0 r0] Hs. simpl in Hs.
    destruct (IH (child_rect c rect i) ch s0 r0 Hs) as [[s1 r1] E1].
    exists (s1, r1). split; [exact E1 |].
    pose proof (size_le_of_dom _ _ (layout_tile_dom _ _ _ _ _ _ _ E1)). simpl. lia. }
  { simpl. lia. }
  unfold layout_recursive. rewrite Ev. eauto.
Qed.

End LayoutRun.

Section TileUiRun.
Context {Pane : Type}.
Context (pane_ui : TileId -> Pane -> bool).

Lemma tile_ui_dom f x (st st' : UiState Pane) :
  tile_ui pane_ui f x st = Some st' ->
  forall z, ui_tiles st !! z = None -> ui_tiles st' !! z = None.
Proof.
  revert x st st'. induction f as [|f IH]; intros x st st' Hrun; [discriminate |].
  simpl in Hrun. intros z Hz.
  destruct (try_rect (ui_rects st) x) as [rect|]; [| by injection Hrun as <-].
  destruct (ui_tiles st !! x) as [tile|] eqn:Hx; [| by injection Hrun as <-].
  assert (Hd : delete x (ui_tiles st) !! z = None).
  { rewrite lookup_delete_ne; [done | congruence]. }
  destruct tile as [p|c].
  - injection Hrun as <-. simpl. rewrite lookup_insert_ne by congruence.
    by destruct (pane_ui x p).
  - unfold container_ui in Hrun.
    destruct (for_each_child (tile_ui pane_ui f) (container_children c) _) as [st2|] eqn:Ev;
      [| discriminate].
    injection Hrun as <-. simpl. rewrite lookup_insert_ne by congruence.
    exact (for_each_child_dom ui_tiles _ IH _ _ _ Ev z Hd).
Qed.

Lemma tile_ui_total f x (st : UiState Pane) :
  size (ui_tiles st) < f -> exists r, tile_ui pane_ui f x st = Some r.
Proof.
  revert x st. induction f as [|f IH]; intros x st Hf; [lia |].
  simpl. destruct (try_rect (ui_rects st) x) as [rect|]; [| eauto].
  destruct (ui_tiles st !! x) as [tile|] eqn:Hx; [| eauto].
  destruct tile as [p|c]; [eauto |].
  pose proof (size_delete_lt (ui_tiles st) x _ Hx) as Hdel.
  unfold container_ui.
  match goal with |- context [for_each_child _ _ ?s0] =>
    destruct (for_each_child_total (tile_ui pane_ui f) (fun s => size (ui_tiles s) < f))
      with (cs := container_children c) (s := s0) as (st2 & Ev & _) end.
  { intros ch s Hs. destruct (IH ch s Hs) as [s1 E1]. exists s1. split; [exact E1 |].
    pose proof (size_le_of_dom _ _ (tile_ui_dom _ _ _ _ E1)). lia. }
  { simpl. lia. }
  rewrite Ev. eauto.
Qed.

End TileUiRun.

Lemma for_each_child_total_in {St : Type} (f : TileId -> St -> option St) (P : St -> Prop) cs :
  (forall c s, c ∈ cs -> P s -> exists s', f c s = Some s' /\ P s') ->
  forall s, P s -> exists s', for_each_child f cs s = Some s' /\ P s'.
Proof.
  induction cs as [|c cs IH]; intros Hf s Hs; simpl; [eauto |].
  destruct (Hf c s ltac:(set_solver) Hs) as (s1 & -> & Hs1).
  apply IH; [| exact Hs1]. intros c' s' Hin. apply Hf. set_solver.
Qed.

Lemma filter_size_insert {A} (P : TileId * A -> Prop) `{!forall kv, Decision (P kv)}
    (m : gmap TileId A) i x :
  size (filter P (<[i := x]> m))
  + (match m !! i with Some y => if decide (P (i, y)) then 1 else 0 | None => 0 end)
  = size (filter P m) + (if decide (P (i, x)) then 1 else 0).
Proof.
  rewrite map_filter_insert.
  destruct (decide (P (i, x))) as [Hx|Hx]; destruct (m !! i) as [y|] eqn:Hi;
    try destruct (decide (P (i, y))) as [Hy|Hy].
  - rewrite map_size_insert_Some; [lia |]. exists y. by apply map_lookup_filter_Some.
  - rewrite map_size_insert_None; [lia |]. apply map_lookup_filter_None. right. naive_solver.
  - rewrite map_size_insert_None; [lia |]. apply map_lookup_filter_None. by left.
  - rewrite map_filter_delete, map_size_delete_Some; [| exists y; by apply map_lookup_filter_Some].
    assert (size (filter P m) <> 0).
    { intros Hz. apply map_size_empty_inv in Hz.
      assert (filter P m !! i = Some y) as E by (by apply map_lookup_filter_Some).
      rewrite Hz, lookup_empty in E. discriminate. }
    lia.
  - rewrite map_filter_delete, map_size_delete_None; [lia |].
    apply map_lookup_filter_None. right. naive_solver.
  - rewrite map_filter_delete, map_size_delete_None; [lia |].
    apply map_lookup_filter_None. by left.
Qed.

Lemma filter_size_delete {A} (P : TileId * A -> Prop) `{!forall kv, Decision (P kv)}
    (m : gmap TileId A) i :
  size (filter P (delete i m))
  + (match m !! i with Some y => if decide (P (i, y)) then 1 else 0 | None => 0 end)
  = size (filter P m).
Proof.
  destruct (m !! i) as [y|] eqn:Hi.
  - pose proof (filter_size_insert P (delete i m) i y) as E.
    rewrite lookup_delete_eq, insert_delete_eq, insert_id in E by done. lia.
  - rewrite delete_id by done. lia.
Qed.

Section MakeAllRun.
Context {Pane : Type}.
Context (r0 : N).

Ltac count_tiles :=
  repeat match goal with
  | H : context [decide ?P] |- _ => destruct (decide P); simpl in *
  end; try lia; try naive_solver lia.

Lemma tabs_potential_delete_container (m : gmap TileId (Tile Pane)) it c :
  m !! it = Some (TileContainer c) -> (it < r0)%N ->
  S (tabs_potential r0 (delete it m)) = tabs_potential r0 m.
Proof.
  intros Hit Hlow. unfold tabs_potential, low_tiles, low_panes.
  pose proof (filter_size_delete (fun kv : TileId * Tile Pane => (kv.1 < r0)%N) m it) as E1.
  pose proof (filter_size_delete (fun kv : TileId * Tile Pane =>
                (kv.1 < r0)%N /\ is_pane (Some kv.2) = true) m it) as E2.
  rewrite Hit in E1, E2. count_tiles.
Qed.

Lemma tabs_potential_insert_container (m : gmap TileId (Tile Pane)) it c :
  (it < r0)%N -> tabs_potential r0 (<[it := TileContainer c]> m) <= S (tabs_potential r0 m).
Proof.
  intros Hlow. unfold tabs_potential, low_tiles, low_panes.
  pose proof (filter_size_insert (fun kv : TileId * Tile Pane => (kv.1 < r0)%N) m it
                (TileContainer c)) as E1.
  pose proof (filter_size_insert (fun kv : TileId * Tile Pane =>
                (kv.1 < r0)%N /\ is_pane (Some kv.2) = true) m it (TileContainer c)) as E2.
  destruct (m !! it) as [[p|c']|]; count_tiles.
Qed.

Lemma tabs_potential_insert_high (m : gmap TileId (Tile Pane)) n t :
  (r0 <= n)%N -> tabs_potential r0 (<[n := t]> m) <= tabs_potential r0 m.
Proof.
  intros Hhigh. unfold tabs_potential, low_tiles, low_panes.
  pose proof (filter_size_insert (fun kv : TileId * Tile Pane => (kv.1 < r0)%N) m n t) as E1.
  pose proof (filter_size_insert (fun kv : TileId * Tile Pane =>
                (kv.1 < r0)%N /\ is_pane (Some kv.2) = true) m n t) as E2.
  destruct (m !! n) as [[p|c']|]; count_tiles.
Qed.

Lemma tabs_potential_delete_pane (m : gmap TileId (Tile Pane)) it p :
  m !! it = Some (TilePane p) -> (it < r0)%N ->
  S (S (tabs_potential r0 (delete it m))) = tabs_potential r0 m.
Proof.
  intros Hit Hlow. unfold tabs_potential, low_tiles, low_panes.
  pose proof (filter_size_delete (fun kv : TileId * Tile Pane => (kv.1 < r0)%N) m it) as E1.
  pose proof (filter_size_delete (fun kv : TileId * Tile Pane =>
                (kv.1 < r0)%N /\ is_pane (Some kv.2) = true) m it) as E2.
  rewrite Hit in E1, E2. count_tiles.
Qed.

Lemma tabs_potential_bound (m : gmap TileId (Tile Pane)) :
  tabs_potential r0 m <= 2 * size m.
Proof.
  unfold tabs_potential, low_tiles, low_panes.
  pose proof (map_size_filter (fun kv : TileId * Tile Pane => (kv.1 < r0)%N) m).
  pose proof (map_size_filter (fun kv : TileId * Tile Pane =>
                (kv.1 < r0)%N /\ is_pane (Some kv.2) = true) m). lia.
Qed.

End MakeAllRun.

Section MakeAllTotal.
Context {Pane : Type}.
Context (r0 : N).

Lemma tabs_inv_insert_container (m : gmap TileId (Tile Pane)) rng it c :
  tabs_inv r0 m rng -> (it < rng)%N -> (it < r0)%N ->
  (container_layout c <> LayoutTabs -> forall ch, ch ∈ container_children c -> (ch < r0)%N) ->
  tabs_inv r0 (<[it := TileContainer c]> m) rng.
Proof.
  intros (Hr0 & Hkeys & Hcont) Hit Hlow Hc. split; [done | split].
  - intros k t. rewrite lookup_insert. case_decide; [congruence | apply Hkeys].
  - intros k c'. rewrite lookup_insert. case_decide as Hk; [| apply Hcont].
    intros E. injection E as <-. subst k. auto.
Qed.

Lemma make_all_panes_total f b it (m : gmap TileId (Tile Pane)) rng :
  tabs_inv r0 m rng -> (b = false -> (it < r0)%N \/ m !! it = None) ->
  tabs_potential r0 m < f ->
  exists m' rng', make_all_panes_children_of_tabs f b it (m, rng) = Some (m', rng') /\
    tabs_inv r0 m' rng' /\ (rng <= rng')%N /\ tabs_potential r0 m' <= tabs_potential r0 m.
Proof.
  revert b it m rng. induction f as [|f IH]; intros b it m rng Hinv Hpre Hf; [lia |].
  simpl. destruct (m !! it) as [tile|] eqn:Hit; [| exists m, rng; split; [done | split; [done | split; lia]]].
  pose proof Hinv as (Hr0 & Hkeys & Hcont).
  destruct tile as [p|c].
  - destruct b; simpl.
    + exists m, rng. rewrite insert_delete_eq, insert_id by done.
      split; [done | split; [done | split; lia]].
    + destruct (Hpre eq_refl) as [Hlow | Hn]; [| congruence].
      pose proof (Hkeys it _ Hit) as Hitr.
      eexists _, _. split; [reflexivity |]. split; [| split; [lia |]].
      * apply tabs_inv_insert_container; [| lia | done | by intros []].
        split; [lia | split].
        -- intros k t. rewrite lookup_insert. case_decide; [lia |].
           rewrite lookup_delete_Some. intros [_ Hk]. pose proof (Hkeys k t Hk). lia.
        -- intros k c'. rewrite lookup_insert. case_decide; [congruence |].
           rewrite lookup_delete_Some. intros [_ Hk]. by apply (Hcont k c').
      * pose proof (tabs_potential_insert_container r0
                      (<[rng := TilePane p]> (delete it m)) it
                      (Container_new_tabs [rng]) Hlow).
        pose proof (tabs_potential_insert_high r0 (delete it m) rng (TilePane p) Hr0).
        pose proof (tabs_potential_delete_pane r0 m it p Hit Hlow). lia.
  - destruct (Hcont it c Hit) as [Hlow Hkids].
    pose proof (Hkeys it _ Hit) as Hitr.
    pose proof (tabs_potential_delete_container r0 m it c Hit Hlow) as Hdel.
    destruct (for_each_child_total_in
                (make_all_panes_children_of_tabs f
                   (bool_decide (container_layout c = LayoutTabs)))
                (fun s : gmap TileId (Tile Pane) * N => tabs_inv r0 s.1 s.2 /\ (rng <= s.2)%N /\
                          tabs_potential r0 s.1 <= tabs_potential r0 (delete it m))
                (container_children c)) with (s := (delete it m, rng))
      as ([m2 rng2] & Ev & Hinv2 & Hrng2 & Hpot2).
    { intros ch [m1 rng1] Hin (Hinv1 & Hrng1 & Hpot1). simpl in *.
      destruct (IH (bool_decide (container_layout c = LayoutTabs)) ch m1 rng1 Hinv1)
        as (m3 & rng3 & E3 & Hinv3 & Hrng3 & Hpot3).
      - intros Hb. left. apply Hkids; [| done]. intros Ht. rewrite bool_decide_eq_false in Hb.
        contradiction.
      - lia.
      - exists (m3, rng3). split; [exact E3 | simpl; split; [exact Hinv3 | split; lia]]. }
    { simpl. split; [| split; [lia | done]].
      split; [done | split].
      - intros k t. rewrite lookup_delete_Some. intros [_ Hk]. eauto.
      - intros k c'. rewrite lookup_delete_Some. intros [_ Hk]. eauto. }
    simpl in *. rewrite Ev. eexists _, _. split; [reflexivity |].
    split; [apply tabs_inv_insert_container; auto; lia | split; [lia |]].
    pose proof (tabs_potential_insert_container r0 m2 it c Hlow). lia.
Qed.

End MakeAllTotal.

Lemma well_supplied_tabs_inv {Pane} (ts : gmap TileId (Tile Pane)) rng :
  well_supplied ts rng -> tabs_inv rng ts rng.
Proof.
  intros Hw. split; [lia | split].
  - intros k t Hk. exact (proj1 (Hw k t Hk)).
  - intros k c Hk. split; [exact (proj1 (Hw k _ Hk)) |].
    intros _ ch Hch. exact (proj1 (Forall_forall _ _) (proj2 (Hw k _ Hk)) ch Hch).
Qed.

Lemma run_make_all_panes_total {Pane} b it (ts : gmap TileId (Tile Pane)) rng :
  well_supplied ts rng ->
  exists ts' rng', run_make_all_panes_children_of_tabs b it ts rng = Some (ts', rng').
Proof.
  intros Hw. unfold run_make_all_panes_children_of_tabs.
  destruct (make_all_panes_total rng (S (2 * size ts)) b it ts rng)
    as (ts' & rng' & E & _); [by apply well_supplied_tabs_inv | | | eauto].
  - intros _. destruct (ts !! it) as [t|] eqn:Ht; [left; exact (proj1 (Hw it t Ht)) | by right].
  - pose proof (tabs_potential_bound rng ts). lia.
Qed.

(** C8: every recursive walk over the arena terminates without panicking,
    whatever the id graph (missing children, cycles, duplicates): [gc_root]
    and [gc_tile_id], [layout_tile] and [tile_ui] with one unit of fuel
    more than there are tiles, [simplify] as run from the tree, and
    [make_all_panes_children_of_tabs] as long as the ids the supply draws
    are fresh.  [gc_tile_id] answers [Remove] at once for an id it has
    already visited or that is not in the arena (taking the tile out of
    the arena in the first case). *)
Theorem recursive_walks_total {Pane : Type} :
  (forall retain_pane root_id (ts : gmap TileId (Tile Pane)),
     exists ts', gc_root retain_pane root_id ts = Some ts') /\
  (forall retain_pane visited tile_id (ts : gmap TileId (Tile Pane)),
     exists r, gc_tile_id retain_pane (S (size ts)) tile_id (visited, ts) = Some r) /\
  (forall retain_pane fuel visited tile_id (ts : gmap TileId (Tile Pane)),
     tile_id ∈ visited \/ ts !! tile_id = None ->
     gc_tile_id retain_pane (S fuel) tile_id (visited, ts)
     = Some (GcRemove, (visited, delete tile_id ts))) /\
  (forall child_rect rect tile_id (ts : gmap TileId (Tile Pane)) rects,
     exists r, layout_tile child_rect (S (size ts)) rect tile_id (ts, rects) = Some r) /\
  (forall pane_ui tile_id (st : UiState Pane),
     exists r, tile_ui pane_ui (S (size (ui_tiles st))) tile_id st = Some r) /\
  (forall options it (ts : gmap TileId (Tile Pane)),
     exists r, run_simplify options it ts = Some r) /\
  (forall parent_is_tabs it (ts : gmap TileId (Tile Pane)) rng,
     well_supplied ts rng ->
     exists r, run_make_all_panes_children_of_tabs parent_is_tabs it ts rng = Some r).
Proof.
  split; [| split; [| split; [| split; [| split; [| split]]]]].
  - intros retain_pane root_id ts. unfold gc_root.
    destruct (gc_tile_id_total retain_pane (S (size ts)) root_id ∅ ts ltac:(lia))
      as [[a [v ts']] ->]. eauto.
  - intros. apply gc_tile_id_total. lia.
  - intros retain_pane fuel visited tile_id ts [Hv | Hn]; simpl.
    + destruct (ts !! tile_id) eqn:Ht; [by rewrite decide_True |].
      by rewrite delete_id.
    + by rewrite Hn, delete_id.
  - intros. apply layout_tile_total. lia.
  - intros. apply tile_ui_total. lia.
  - apply run_simplify_total.
  - intros b it ts rng Hw. destruct (run_make_all_panes_total b it ts rng Hw) as (ts' & rng' & E).
    eauto.
Qed.

Lemma recursive_walks_total_witness :
  well_supplied (<[1%N := TileContainer (Container_new_tabs [2%N])]>
                   (<[2%N := TilePane 0]> ∅)) 3%N /\
  exists r, run_make_all_panes_children_of_tabs false 1%N
              (<[1%N := TileContainer (Container_new_tabs [2%N])]> (<[2%N := TilePane 0]> ∅))
              3%N = Some r.
Proof.
  assert (Hw : well_supplied (<[1%N := TileContainer (Container_new_tabs [2%N])]>
                   (<[2%N := TilePane 0]> ∅)) 3%N) by (unfold well_supplied; apply (bool_decide_unpack _); vm_compute; reflexivity).
  split; [exact Hw |].
  exact (proj2 (proj2 (proj2 (proj2 (proj2 (proj2 (@recursive_walks_total nat))))))
           false 1%N _ 3%N Hw).
Defined.

Lemma for_each_child_inv {St : Type} (f : TileId -> St -> option St)
    (P : St -> Prop) (R : St -> St -> Prop) cs :
  (forall s, R s s) -> (forall s1 s2 s3, R s1 s2 -> R s2 s3 -> R s1 s3) ->
  (forall c s s', c ∈ cs -> P s -> f c s = Some s' -> P s' /\ R s s') ->
  forall s s', P s -> for_each_child f cs s = Some s' -> P s' /\ R s s'.
Proof.
  intros Hrefl Htrans. induction cs as [|c cs IH]; intros Hf s s' Hs H; simpl in H.
  - injection H as <-. auto.
  - destruct (f c s) as [s1|] eqn:Ef; [| discriminate].
    destruct (Hf c s s1 ltac:(set_solver) Hs Ef) as [Hs1 R1].
    destruct (IH ltac:(intros c' s2 s3 Hin; apply Hf; set_solver) s1 s' Hs1 H) as [Hs' R2].
    eauto.
Qed.

Section TabsAdv.
Context {Pane : Type}.
Context (r0 : N).

Lemma tabs_adv_refl (m : gmap TileId (Tile Pane)) : tabs_adv r0 m m.
Proof.
  split; [auto | split; [auto | split; [auto | split]]].
  - intros. by left.
  - intros. by left.
Qed.

Lemma tabs_adv_trans (m1 m2 m3 : gmap TileId (Tile Pane)) :
  tabs_adv r0 m1 m2 -> tabs_adv r0 m2 m3 -> tabs_adv r0 m1 m3.
Proof.
  intros (A1 & A2 & A3 & A4 & A5) (B1 & B2 & B3 & B4 & B5).
  split; [auto | split; [auto | split; [auto | split]]].
  - intros k c H3. destruct (B4 k c H3) as [H2 | [Ht Hn]].
    + destruct (A4 k c H2) as [H1 | [Ht Hn]]; [by left | right].
      split; [done |]. intros n Hin. destruct (Hn n Hin) as [Hr Hp]. split; [done |].
      destruct (m2 !! n) as [[p|]|] eqn:E; try discriminate. by rewrite (B3 n p Hr E).
    + by right.
  - intros k p Hk H1. destruct (A5 k p Hk H1) as [H2 | (n & Hr & Hn & Hw & Hp)].
    + destruct (B5 k p Hk H2) as [H3 | (n & Hr & Hn & Hw & Hp)]; [by left | right].
      exists n. split; [done | split; [| done]].
      destruct (m1 !! n) as [[p'|c']|] eqn:E; [| | done].
      * rewrite (A3 n p' Hr E) in Hn. discriminate.
      * rewrite (A1 n c' E) in Hn. discriminate.
    + right. exists n. split; [done | split; [done | split]]; auto.
Qed.

Lemma tabs_done_adv (m0 m m' : gmap TileId (Tile Pane)) S D :
  well_supplied m0 r0 -> tabs_adv r0 m m' -> tabs_done m0 m S D -> tabs_done m0 m' S D.
Proof.
  intros Hw (A1 & A2 & A3 & A4 & A5) Hd x c Hx H0. destruct (Hd x c Hx H0) as [Hp Hk].
  split; [| done]. intros Ht y Hy. specialize (Hp Ht y Hy).
  assert (Hlow : (y < r0)%N).
  { pose proof (proj2 (Hw x _ H0)) as Hall. exact (proj1 (Forall_forall _ _) Hall y Hy). }
  destruct (m !! y) as [[p|c']|] eqn:E; try discriminate.
  - by rewrite (A1 y c' E).
  - by rewrite (A2 y Hlow E).
Qed.

Lemma tabs_stack_adv (m0 m m' : gmap TileId (Tile Pane)) S :
  tabs_adv r0 m m' -> tabs_stack r0 m0 m S -> tabs_stack r0 m0 m' S.
Proof.
  intros (A1 & A2 & _) [Hs1 Hs2]. split.
  - intros k Hk. destruct (Hs1 k Hk) as [Hl Hn]. auto.
  - intros k c H0 Hk. auto.
Qed.

Lemma tabs_inv_delete (m : gmap TileId (Tile Pane)) rng it :
  tabs_inv r0 m rng -> tabs_inv r0 (delete it m) rng.
Proof.
  intros (Hr0 & Hkeys & Hcont). split; [done | split].
  - intros k t. rewrite lookup_delete_Some. intros [_ Hk]. eauto.
  - intros k c'. rewrite lookup_delete_Some. intros [_ Hk]. eauto.
Qed.

End TabsAdv.

Section MakeAllAdv.
Context {Pane : Type}.
Context (r0 : N).

Lemma make_all_panes_adv f b it (m : gmap TileId (Tile Pane)) rng m' rng' :
  tabs_inv r0 m rng -> (b = false -> (it < r0)%N \/ m !! it = None) ->
  make_all_panes_children_of_tabs f b it (m, rng) = Some (m', rng') ->
  tabs_inv r0 m' rng' /\ (rng <= rng')%N /\ tabs_adv r0 m m'.
Proof.
  revert b it m rng m' rng'. induction f as [|f IH];
    intros b it m rng m' rng' Hinv Hpre Hrun; [discriminate |].
  simpl in Hrun. pose proof Hinv as (Hr0 & Hkeys & Hcont).
  destruct (m !! it) as [tile|] eqn:Hit.
  2:{ injection Hrun as <- <-. split; [done | split; [lia | apply tabs_adv_refl]]. }
  destruct tile as [p|c].
  - destruct b; simpl in Hrun.
    { injection Hrun as <- <-. rewrite insert_delete_eq, insert_id by done.
      split; [done | split; [lia | apply tabs_adv_refl]]. }
    injection Hrun as <- <-.
    destruct (Hpre eq_refl) as [Hlow | Hn]; [| congruence].
    pose proof (Hkeys it _ Hit) as Hitr.
    assert (Hrng : m !! rng = None).
    { destruct (m !! rng) eqn:E; [| done]. pose proof (Hkeys rng _ E). lia. }
    split; [| split; [lia |]].
    + apply tabs_inv_insert_container; [| lia | done | by intros []].
      split; [lia | split].
      * intros k t. rewrite lookup_insert. case_decide; [lia |].
        rewrite lookup_delete_Some. intros [_ Hk]. pose proof (Hkeys k t Hk). lia.
      * intros k c'. rewrite lookup_insert. case_decide; [congruence |].
        rewrite lookup_delete_Some. intros [_ Hk]. by apply (Hcont k c').
    + split; [| split; [| split; [| split]]].
      * intros k c' Hk. rewrite !lookup_insert_ne by congruence.
        rewrite lookup_delete_ne by congruence. done.
      * intros k Hk Hn. rewrite !lookup_insert_ne by (try congruence; lia).
        rewrite lookup_delete_ne by congruence. done.
      * intros k p' Hk Hp. rewrite !lookup_insert_ne by (try congruence; lia).
        rewrite lookup_delete_ne by lia. done.
      * intros k c'. rewrite lookup_insert. case_decide as Hk.
        -- intros E. injection E as <-. right. split; [done |].
           intros n Hn. apply list_elem_of_singleton in Hn as ->. split; [done |].
           rewrite lookup_insert_ne by lia. by rewrite lookup_insert_eq.
        -- rewrite lookup_insert. case_decide; [discriminate |].
           rewrite lookup_delete_ne by done. by left.
      * intros k p' Hk Hp. destruct (decide (it = k)) as [<- | Hne].
        -- right. exists rng. rewrite Hit in Hp. injection Hp as <-.
           split; [done | split; [done | split]].
           ++ apply lookup_insert_eq.
           ++ rewrite lookup_insert_ne by lia. apply lookup_insert_eq.
        -- left. rewrite !lookup_insert_ne by (try done; intros ->; congruence).
           rewrite lookup_delete_ne by done. done.
  - destruct (Hcont it c Hit) as [Hlow Hkids].
    pose proof (Hkeys it _ Hit) as Hitr.
    destruct (for_each_child (make_all_panes_children_of_tabs f
                (bool_decide (container_layout c = LayoutTabs))) (container_children c)
                (delete it m, rng)) as [[m2 rng2]|] eqn:Ev; [| discriminate].
    injection Hrun as <- <-.
    destruct (for_each_child_inv (make_all_panes_children_of_tabs f
                (bool_decide (container_layout c = LayoutTabs)))
                (fun s : gmap TileId (Tile Pane) * N => tabs_inv r0 s.1 s.2)
                (fun s s' => (s.2 <= s'.2)%N /\ tabs_adv r0 s.1 s'.1) (container_children c)
                ltac:(intros; split; [lia | apply tabs_adv_refl])
                ltac:(intros ? ? ? [? ?] [? ?]; split; [lia | eapply tabs_adv_trans; eauto])
                ltac:(intros ch [m1 rng1] [m3 rng3] Hin Hinv1 E3; simpl in *;
                      refine (_ (IH _ ch m1 rng1 m3 rng3 Hinv1 _ E3));
                      [intros (? & ? & ?); auto |];
                      intros Hb; left; apply Hkids; [| done]; intros Ht;
                      rewrite bool_decide_eq_false in Hb; contradiction)
                (delete it m, rng) (m2, rng2) ltac:(by apply tabs_inv_delete) Ev)
      as [Hinv2 [Hrng2 (A1 & A2 & A3 & A4 & A5)]].
    simpl in *. split; [apply tabs_inv_insert_container; auto; lia | split; [lia |]].
    split; [| split; [| split; [| split]]].
    + intros k c' Hk. destruct (decide (it = k)) as [<- | Hne].
      * rewrite Hit in Hk. injection Hk as <-. apply lookup_insert_eq.
      * rewrite lookup_insert_ne by done. apply A1. by rewrite lookup_delete_ne.
    + intros k Hk Hn. rewrite lookup_insert_ne by congruence. apply A2; [done |].
      by rewrite lookup_delete_ne by congruence.
    + intros k p Hk Hp. rewrite lookup_insert_ne by congruence. apply A3; [done |].
      by rewrite lookup_delete_ne by congruence.
    + intros k c'. rewrite lookup_insert. destruct (decide (it = k)) as [<- | Hk].
      * intros E. injection E as <-. by left.
      * intros E. destruct (A4 k c' E) as [E' | [Ht Hn]].
        -- left. by rewrite lookup_delete_ne in E'.
        -- right. split; [done |]. intros n Hin. destruct (Hn n Hin) as [Hr Hp].
           split; [done |]. by rewrite lookup_insert_ne by lia.
    + intros k p Hk Hp. assert (Hne : it <> k) by congruence.
      rewrite lookup_insert_ne by done.
      destruct (A5 k p Hk ltac:(by rewrite lookup_delete_ne)) as [E | (n & Hr & Hn & Hw & Hq)];
        [by left | right].
      exists n. rewrite lookup_delete_ne in Hn by lia.
      split; [done | split; [done | split; [done |]]]. by rewrite lookup_insert_ne by lia.
Qed.

End MakeAllAdv.

Section MakeAllDone.
Context {Pane : Type}.
Context (m0 : gmap TileId (Tile Pane)) (r0 : N).
Hypothesis Hm0 : well_supplied m0 r0.

Lemma is_pane_delete (m : gmap TileId (Tile Pane)) k y :
  is_pane (m !! y) = false -> is_pane (delete k m !! y) = false.
Proof. rewrite lookup_delete. by case_decide. Qed.

Lemma is_pane_insert_container (m : gmap TileId (Tile Pane)) k c y :
  is_pane (m !! y) = false -> is_pane (<[k := TileContainer c]> m !! y) = false.
Proof. rewrite lookup_insert. by case_decide. Qed.

Lemma is_pane_adv (m m' : gmap TileId (Tile Pane)) k :
  tabs_adv r0 m m' -> (k < r0)%N -> is_pane (m !! k) = false -> is_pane (m' !! k) = false.
Proof.
  intros (A1 & A2 & _) Hk Hp. destruct (m !! k) as [[p|c]|] eqn:E; try discriminate.
  - by rewrite (A1 k c E).
  - by rewrite (A2 k Hk E).
Qed.

Lemma make_all_panes_loop_adv f is_tabs cs (m1 : gmap TileId (Tile Pane)) rng1 m2 rng2 :
  tabs_inv r0 m1 rng1 -> (is_tabs = false -> forall ch, ch ∈ cs -> (ch < r0)%N) ->
  for_each_child (make_all_panes_children_of_tabs f is_tabs) cs (m1, rng1) = Some (m2, rng2) ->
  tabs_inv r0 m2 rng2 /\ tabs_adv r0 m1 m2.
Proof.
  intros Hinv Hkids Ev.
  destruct (for_each_child_inv (make_all_panes_children_of_tabs f is_tabs)
              (fun s : gmap TileId (Tile Pane) * N => tabs_inv r0 s.1 s.2)
              (fun s s' => tabs_adv r0 s.1 s'.1) cs
              ltac:(intros; apply tabs_adv_refl)
              ltac:(intros s1 s2 s3 H12 H23; exact (tabs_adv_trans r0 _ _ _ H12 H23))
              ltac:(intros ch [m3 rng3] [m4 rng4] Hin Hinv3 E4; simpl in *;
                    refine (_ (make_all_panes_adv r0 f is_tabs ch m3 rng3 m4 rng4 Hinv3 _ E4));
                    [intros (? & ? & ?); auto | intros Hb; left; auto])
              (m1, rng1) (m2, rng2) Hinv Ev) as [H1 H2].
  auto.
Qed.

Lemma make_all_panes_done f b it (m : gmap TileId (Tile Pane)) rng m' rng' stk D :
  tabs_inv r0 m rng -> (b = false -> (it < r0)%N \/ m !! it = None) ->
  tabs_stack r0 m0 m stk -> tabs_done m0 m stk D ->
  make_all_panes_children_of_tabs f b it (m, rng) = Some (m', rng') ->
  exists D', D ⊆ D' /\ tabs_stack r0 m0 m' stk /\ tabs_done m0 m' stk D' /\
    (forall c, m0 !! it = Some (TileContainer c) -> it ∈ D' \/ it ∈ stk) /\
    ((it < r0)%N -> b = false -> is_pane (m' !! it) = false).
Proof.
  revert b it m rng m' rng' stk D. induction f as [|f IH];
    intros b it m rng m' rng' stk D Hinv Hpre Hstack Hdone Hrun; [discriminate |].
  destruct (make_all_panes_adv r0 (S f) b it m rng m' rng' Hinv Hpre Hrun)
    as (Hinv' & Hrng' & Hadv).
  pose proof (tabs_stack_adv r0 m0 m m' stk Hadv Hstack) as Hstack'.
  pose proof (tabs_done_adv r0 m0 m m' stk D Hm0 Hadv Hdone) as Hdone'.
  assert (Hnotc : forall c, m0 !! it = Some (TileContainer c) -> it ∉ stk ->
                    m !! it = Some (TileContainer c)) by (intros; by apply Hstack).
  simpl in Hrun. destruct (m !! it) as [tile|] eqn:Hit.
  2:{ injection Hrun as <- <-. exists D. split; [done | split; [done | split; [done | split]]].
      - intros c Hc. destruct (decide (it ∈ stk)) as [| Hn]; [by right |].
        discriminate (Hnotc c Hc Hn).
      - by rewrite Hit. }
  destruct tile as [p|c].
  { assert (Hc4 : forall c, m0 !! it = Some (TileContainer c) -> it ∈ D \/ it ∈ stk).
    { intros c Hc. destruct (decide (it ∈ stk)) as [| Hn]; [by right |].
      discriminate (Hnotc c Hc Hn). }
    destruct b; simpl in Hrun; injection Hrun as <- <-;
      (exists D; split; [done | split; [done | split; [done | split; [done |]]]]).
    - discriminate.
    - intros _ _. by rewrite lookup_insert_eq. }
  (* a container: walk its children, then put it back *)
  destruct (proj2 (proj2 Hinv) it c Hit) as [Hlow Hkids].
  assert (HitS : it ∉ stk).
  { intros Hin. rewrite (proj2 (proj1 Hstack it Hin)) in Hit. discriminate. }
  assert (Hc0 : forall c0, m0 !! it = Some (TileContainer c0) -> c0 = c).
  { intros c0 Hc0. pose proof (Hnotc c0 Hc0 HitS) as E. by injection E. }
  set (is_tabs := bool_decide (container_layout c = LayoutTabs)) in *.
  assert (Hkids' : is_tabs = false -> forall ch, ch ∈ container_children c -> (ch < r0)%N).
  { intros Hb. apply Hkids. intros Ht. unfold is_tabs in Hb.
    rewrite bool_decide_eq_false in Hb. contradiction. }
  assert (Hloop : forall cs, cs ⊆ container_children c ->
    forall m1 rng1 m2 rng2 D1, tabs_inv r0 m1 rng1 ->
    tabs_stack r0 m0 m1 ({[it]} ∪ stk) -> tabs_done m0 m1 ({[it]} ∪ stk) D1 ->
    for_each_child (make_all_panes_children_of_tabs f is_tabs) cs (m1, rng1)
      = Some (m2, rng2) ->
    exists D2, D1 ⊆ D2 /\ tabs_stack r0 m0 m2 ({[it]} ∪ stk) /\
      tabs_done m0 m2 ({[it]} ∪ stk) D2 /\
      forall y, y ∈ cs ->
        (forall c', m0 !! y = Some (TileContainer c') -> y ∈ D2 \/ y ∈ {[it]} ∪ stk) /\
        (container_layout c <> LayoutTabs -> is_pane (m2 !! y) = false)).
  { induction cs as [|ch cs IHcs]; intros Hsub m1 rng1 m2 rng2 D1 Hinv1 Hst1 Hd1 Ev;
      simpl in Ev.
    { injection Ev as <- <-. exists D1. split; [done | split; [done | split; [done |]]].
      intros y Hy. by apply not_elem_of_nil in Hy. }
    destruct (make_all_panes_children_of_tabs f is_tabs ch (m1, rng1)) as [[m3 rng3]|] eqn:E3;
      [| discriminate].
    assert (Hpre3 : is_tabs = false -> (ch < r0)%N \/ m1 !! ch = None).
    { intros Hb. left. apply (Hkids' Hb). apply Hsub. set_solver. }
    destruct (IH is_tabs ch m1 rng1 m3 rng3 _ D1 Hinv1 Hpre3 Hst1 Hd1 E3)
      as (D3 & HD13 & Hst3 & Hd3 & Hp4 & Hp5).
    destruct (make_all_panes_adv r0 f is_tabs ch m1 rng1 m3 rng3 Hinv1 Hpre3 E3)
      as (Hinv3 & _ & _).
    destruct (IHcs ltac:(set_solver) m3 rng3 m2 rng2 D3 Hinv3 Hst3 Hd3 Ev)
      as (D2 & HD32 & Hst2 & Hd2 & Hys).
    destruct (make_all_panes_loop_adv f is_tabs cs m3 rng3 m2 rng2 Hinv3
                ltac:(intros Hb ch' Hch'; apply (Hkids' Hb), Hsub; set_solver) Ev)
      as (_ & Hadv32).
    exists D2. split; [set_solver | split; [done | split; [done |]]].
    intros y Hy. apply elem_of_cons in Hy as [-> | Hy]; [| by apply Hys].
    split.
    - intros c' Hc'. destruct (Hp4 c' Hc') as [H | H]; [left; set_solver | by right].
    - intros Ht. assert (Hy : (ch < r0)%N) by (apply Hkids; [done | apply Hsub; set_solver]).
      apply (is_pane_adv m3 m2 ch Hadv32 Hy). apply Hp5; [done |].
      unfold is_tabs. by apply bool_decide_eq_false.
  }
  destruct (for_each_child (make_all_panes_children_of_tabs f is_tabs) (container_children c)
              (delete it m, rng)) as [[m2 rng2]|] eqn:Ev; [| discriminate].
  injection Hrun as <- <-.
  destruct (Hloop (container_children c) ltac:(done) (delete it m) rng m2 rng2 D
              ltac:(by apply tabs_inv_delete)) as (D2 & HD2 & Hst2 & Hd2 & Hys).
  { split.
    - intros k Hk. apply elem_of_union in Hk as [Hk | Hk].
      + apply elem_of_singleton in Hk as ->. split; [done | apply lookup_delete_eq].
      + destruct (proj1 Hstack k Hk) as [Hl Hn]. split; [done |].
        by rewrite lookup_delete_None; right.
    - intros k c' Hk Hn. rewrite lookup_delete_ne by set_solver.
      apply (proj2 Hstack); [done | set_solver]. }
  { intros x cx Hx Hcx. destruct (Hdone x cx Hx Hcx) as [H1 H2]. split.
    - intros Ht y Hy. apply is_pane_delete. auto.
    - intros y c' Hy Hc'. destruct (H2 y c' Hy Hc'); [by left | right; set_solver]. }
  { exact Ev. }
  exists ({[it]} ∪ D2). split; [set_solver | split; [| split; [| split]]].
  - split.
    + intros k Hk. destruct (proj1 Hst2 k ltac:(set_solver)) as [Hl Hn].
      split; [done |]. rewrite lookup_insert_ne; [done | set_solver].
    + intros k c' Hk Hn. destruct (decide (it = k)) as [<- | Hne].
      * rewrite (Hc0 c' Hk). apply lookup_insert_eq.
      * rewrite lookup_insert_ne by done. apply (proj2 Hst2); [done | set_solver].
  - intros x cx Hx Hcx. apply elem_of_union in Hx as [Hx | Hx].
    + apply elem_of_singleton in Hx as ->. rewrite (Hc0 cx Hcx). split.
      * intros Ht y Hy. apply is_pane_insert_container. by apply Hys.
      * intros y c' Hy Hc'. destruct (proj1 (Hys y Hy) c' Hc') as [H | H];
          [left; set_solver |].
        apply elem_of_union in H as [H | H]; [left; set_solver | by right].
    + destruct (Hd2 x cx Hx Hcx) as [H1 H2]. split.
      * intros Ht y Hy. apply is_pane_insert_container. auto.
      * intros y c' Hy Hc'. destruct (H2 y c' Hy Hc') as [H | H]; [left; set_solver |].
        apply elem_of_union in H as [H | H]; [left; set_solver | by right].
  - intros c' _. left. set_solver.
  - intros _ _. by rewrite lookup_insert_eq.
Qed.

End MakeAllDone.

Lemma tabs_done_closed {Pane} (m0 m : gmap TileId (Tile Pane)) D root x :
  tabs_done m0 m ∅ D ->
  (forall c, m0 !! root = Some (TileContainer c) -> root ∈ D) ->
  reachable m0 root x -> forall c, m0 !! x = Some (TileContainer c) -> x ∈ D.
Proof.
  intros Hd Hroot Hr. induction Hr as [|a ca b Ha IH Hca Hb]; [exact Hroot |].
  intros c Hc. destruct (proj2 (Hd a ca (IH ca Hca) Hca) b c Hb Hc) as [H | H];
    [done | set_solver].
Qed.

Lemma tabs_adv_reachable {Pane} r0 (m m' : gmap TileId (Tile Pane)) root x :
  tabs_adv r0 m m' -> reachable m' root x ->
  forall c, m' !! x = Some (TileContainer c) ->
  (m !! x = Some (TileContainer c) /\ reachable m root x) \/
  (container_layout c = LayoutTabs /\
   forall n, n ∈ container_children c -> is_pane (m' !! n) = true).
Proof.
  intros Hadv Hr. pose proof Hadv as (_ & _ & _ & A4 & _).
  induction Hr as [|a ca b Ha IH Hca Hb]; intros c Hc.
  - destruct (A4 root c Hc) as [H | [Ht Hn]].
    + left. split; [done | apply reachable_root].
    + right. split; [done | intros n Hin; apply Hn, Hin].
  - destruct (IH ca Hca) as [[Hma Hra] | [_ Hn]].
    + destruct (A4 b c Hc) as [H | [Ht Hn]].
      * left. split; [done | eapply reachable_child; eauto].
      * right. split; [done | intros n Hin; apply Hn, Hin].
    + specialize (Hn b Hb). rewrite Hc in Hn. discriminate.
Qed.

(** C6: after [make_all_panes_children_of_tabs false root_id], with a
    supply drawing fresh ids: every pane reachable from [root_id] has a
    parent reachable from [root_id], and every such parent is a [Tabs]
    container; the root and every pane child of a reachable container
    that is not [Tabs] (the panes visited with [parent_is_tabs = false])
    now hold a one-child [Tabs] container over a fresh id holding the
    pane; and a single visit of a pane with [parent_is_tabs = false]
    moves the pane to the next id of the supply and puts a one-child
    [Tabs] over it at the pane's old id. *)
Theorem make_all_panes_tabs_parent {Pane} (ts : gmap TileId (Tile Pane)) rng root_id ts' rng' :
  well_supplied ts rng ->
  run_make_all_panes_children_of_tabs false root_id ts rng = Some (ts', rng') ->
  (forall y, reachable ts' root_id y -> is_pane (ts' !! y) = true ->
     (exists x c, reachable ts' root_id x /\ ts' !! x = Some (TileContainer c) /\
                  y ∈ container_children c) /\
     (forall x c, reachable ts' root_id x -> ts' !! x = Some (TileContainer c) ->
                  y ∈ container_children c -> container_layout c = LayoutTabs)) /\
  (forall y p, ts !! y = Some (TilePane p) ->
     (y = root_id \/ exists x c, reachable ts root_id x /\ ts !! x = Some (TileContainer c) /\
                       container_layout c <> LayoutTabs /\ y ∈ container_children c) ->
     exists n, (rng <= n)%N /\ ts !! n = None /\
       ts' !! y = Some (TileContainer (Container_new_tabs [n])) /\
       ts' !! n = Some (TilePane p)) /\
  (forall fuel it p (m : gmap TileId (Tile Pane)) r, m !! it = Some (TilePane p) ->
     make_all_panes_children_of_tabs (S fuel) false it (m, r)
     = Some (<[it := TileContainer (Container_new_tabs [r])]> (<[r := TilePane p]> (delete it m)),
             N.succ r)).
Proof.
  intros Hw Hrun. split; [| split].
  3:{ intros fuel it p m r Hit. simpl. by rewrite Hit. }
  all: unfold run_make_all_panes_children_of_tabs in Hrun.
  all: destruct (ts !! root_id) as [troot|] eqn:Hroot;
    [| simpl in Hrun; rewrite Hroot in Hrun; injection Hrun as <- <-].
  2:{ intros y Hr Hp. apply reachable_first_step in Hr as [<- | (c & ch & Hc & _)];
      rewrite Hroot in *; discriminate. }
  3:{ intros y p Hy [-> | (x & c & Hr & Hx & _)]; [congruence |].
      apply reachable_first_step in Hr as [-> | (c' & ch & Hc & _)]; congruence. }
  all: assert (Hlow : (root_id < rng)%N) by exact (proj1 (Hw root_id troot Hroot)).
  all: pose proof (well_supplied_tabs_inv ts rng Hw) as Hinv.
  all: destruct (make_all_panes_adv rng _ false root_id ts rng ts' rng' Hinv
                   ltac:(intros; by left) Hrun) as (Hinv' & Hrng' & Hadv).
  all: destruct (make_all_panes_done ts rng Hw _ false root_id ts rng ts' rng' ∅ ∅ Hinv
                   ltac:(intros; by left)
                   ltac:(split; [set_solver | intros; done])
                   ltac:(intros ? ? ?; set_solver) Hrun)
    as (D & _ & _ & Hd & Hroot_done & Hroot_np).
  all: assert (HinD : forall x c, reachable ts root_id x -> ts !! x = Some (TileContainer c) ->
                       x ∈ D)
         by (intros x c Hr Hc; eapply tabs_done_closed; eauto;
             intros c' Hc'; destruct (Hroot_done c' Hc'); set_solver).
  - intros y Hr Hp. split.
    + inversion Hr as [Hy | a c b Ha Hc Hb]; subst.
      * rewrite (Hroot_np Hlow eq_refl) in Hp. discriminate.
      * eauto.
    + intros x c Hx Hc Hy. destruct (decide (container_layout c = LayoutTabs)) as [| Ht];
        [done | exfalso].
      destruct (tabs_adv_reachable rng ts ts' root_id x Hadv Hx c Hc) as [[Hc0 Hr0] | [? _]];
        [| contradiction].
      pose proof (proj1 (Hd x c (HinD x c Hr0 Hc0) Hc0) Ht y Hy) as Hnp. congruence.
  - intros y p Hy Hvis.
    assert (Hnp : is_pane (ts' !! y) = false).
    { destruct Hvis as [-> | (x & c & Hr & Hx & Ht & Hin)]; [by apply Hroot_np |].
      exact (proj1 (Hd x c (HinD x c Hr Hx) Hx) Ht y Hin). }
    pose proof Hadv as (_ & _ & _ & _ & A5).
    destruct (A5 y p (proj1 (Hw y _ Hy)) Hy) as [E | (n & Hn & Hn0 & Hw1 & Hw2)].
    + rewrite E in Hnp. discriminate.
    + exists n. auto.
Qed.

Lemma make_all_panes_tabs_parent_witness :
  well_supplied tabs_example_arena 5%N /\
  exists ts' rng',
    run_make_all_panes_children_of_tabs false 1%N tabs_example_arena 5%N = Some (ts', rng') /\
    ts' !! 2%N = Some (TileContainer (Container_new_tabs [5%N])) /\
    ts' !! 5%N = Some (TilePane 0) /\
    exists n, (5 <= n)%N /\ tabs_example_arena !! n = None /\
      ts' !! 2%N = Some (TileContainer (Container_new_tabs [n])) /\ ts' !! n = Some (TilePane 0).
Proof.
  assert (Hw : well_supplied tabs_example_arena 5%N)
    by (unfold well_supplied; apply (bool_decide_unpack _); vm_compute; reflexivity).
  split; [exact Hw |].
  eexists _, _. split; [vm_compute; reflexivity |].
  split; [vm_compute; reflexivity | split; [vm_compute; reflexivity |]].
  refine (proj1 (proj2 (make_all_panes_tabs_parent tabs_example_arena 5%N 1%N _ _ Hw
                          ltac:(vm_compute; reflexivity))) 2%N 0 ltac:(vm_compute; reflexivity) _).
  right. exists 1%N, (ContainerLinear (Linear_new Horizontal [2%N; 3%N])).
  split; [apply reachable_root | split; [vm_compute; reflexivity | split]].
  - vm_compute. discriminate.
  - apply elem_of_cons. by left.
Defined.


(** ** Further properties of the arena operations *)







Lemma vec_insert_elem {A} (l : list A) i v : v ∈ vec_insert l i v.
Proof. unfold vec_insert. apply elem_of_app. right. apply elem_of_cons. by left. Qed.

Lemma vec_insert_end {A} (l : list A) i v :
  length l <= i -> vec_insert l (Nat.min i (length l)) v = l ++ [v].
Proof.
  intros Hi. rewrite Nat.min_r by done. unfold vec_insert.
  rewrite take_ge, drop_ge by done. reflexivity.
Qed.

Lemma insert_shape {Pane} ip child (ts : gmap TileId (Tile Pane)) rng T :
  ts !! parent_id ip = Some T ->
  exists T', child ∈ tile_children T' /\
    (insert ip child ts rng = (<[parent_id ip := T']> (delete (parent_id ip) ts), rng) \/
     insert ip child ts rng
     = (<[parent_id ip := T']> (<[rng := T]> (delete (parent_id ip) ts)), N.succ rng)).
Proof.
  intros Ht. unfold insert. rewrite Ht.
  destruct (insertion ip) as [i|i|i|loc];
    destruct T as [p|[t|[[] ch]|g]]; simpl;
    eexists; (split; [| first [left; reflexivity | right; reflexivity]]); simpl;
    first [ apply vec_insert_elem | set_solver ].
Qed.

(** X3: when the supply's next id is unused, [insert] loses no tile:
    every key stays a key, only [parent_id] and the fresh id can change,
    and either no id is drawn and the size is kept, or one id is drawn
    and the arena grows by one. *)
Theorem insert_keeps_tiles {Pane} ip child (ts : gmap TileId (Tile Pane)) rng :
  ts !! rng = None ->
  let '(ts', rng') := insert ip child ts rng in
  (forall k, is_Some (ts !! k) -> is_Some (ts' !! k)) /\
  (forall k, k <> parent_id ip -> k <> rng -> ts' !! k = ts !! k) /\
  ((rng' = rng /\ size ts' = size ts) \/ (rng' = N.succ rng /\ size ts' = S (size ts))).
Proof.
  intros Hrng.
  destruct (ts !! parent_id ip) as [T|] eqn:Ht.
  2:{ assert (E : insert ip child ts rng = (ts, rng)) by (unfold insert; by rewrite Ht).
      rewrite E. split; [done | split; [done | by left]]. }
  assert (Hne : parent_id ip <> rng) by congruence.
  pose proof (size_delete_lt ts (parent_id ip) T Ht) as Hsz.
  destruct (insert_shape ip child ts rng T Ht) as (T' & _ & [-> | ->]).
  - split; [| split].
    + intros k Hk. rewrite lookup_insert. case_decide; [done |].
      by rewrite lookup_delete_ne by done.
    + intros k Hk1 _. rewrite lookup_insert_ne, lookup_delete_ne by done. done.
    + left. split; [done |]. rewrite map_size_insert_None by apply lookup_delete_eq. lia.
  - split; [| split].
    + intros k Hk. rewrite lookup_insert. case_decide; [done |].
      rewrite lookup_insert. case_decide; [done |].
      by rewrite lookup_delete_ne by done.
    + intros k Hk1 Hk2. rewrite !lookup_insert_ne, lookup_delete_ne by done. done.
    + right. split; [done |].
      rewrite map_size_insert_None
        by (rewrite lookup_insert_ne by done; apply lookup_delete_eq).
      rewrite map_size_insert_None by (rewrite lookup_delete_ne by done; done). lia.
Qed.

(** X4: when [parent_id] is a key, after [insert] the tile at
    [parent_id] lists [child_id] among its children, and a Tabs
    insertion makes [child_id] the active tab. *)
Theorem insert_places_child {Pane} ip child (ts : gmap TileId (Tile Pane)) rng T :
  ts !! parent_id ip = Some T ->
  let ts' := fst (insert ip child ts rng) in
  exists T', ts' !! parent_id ip = Some T' /\ child ∈ tile_children T' /\
    (forall i, insertion ip = InsTabs i ->
       exists t, T' = TileContainer (ContainerTabs t) /\ tabs_active t = child).
Proof.
  intros Ht ts'. subst ts'. unfold insert. rewrite Ht.
  destruct (insertion ip) as [i|i|i|loc] eqn:Ei;
    destruct T as [p|[t|[[] ch]|g]]; simpl;
    eexists; (split; [by rewrite lookup_insert_eq |]);
    (split; [simpl; first [ apply vec_insert_elem | set_solver ] |]);
    intros i' Hi; first [ discriminate Hi | eexists; split; reflexivity ].
Qed.

(** X5: inserting into a Tabs, Horizontal or Vertical container of the
    matching kind at an index at or past the end of its children appends
    the child (the index is clamped, no panic), keeps the layout and
    draws no id. *)
Theorem insert_index_past_end {Pane} (ts : gmap TileId (Tile Pane)) pid c ins i child rng :
  ts !! pid = Some (TileContainer c) ->
  (ins = InsTabs i /\ container_layout c = LayoutTabs \/
   ins = InsHorizontal i /\ container_layout c = LayoutHorizontal \/
   ins = InsVertical i /\ container_layout c = LayoutVertical) ->
  length (container_children c) <= i ->
  let '(ts', rng') := insert {| parent_id := pid; insertion := ins |} child ts rng in
  rng' = rng /\
  exists c', ts' !! pid = Some (TileContainer c') /\
    container_layout c' = container_layout c /\
    container_children c' = container_children c ++ [child].
Proof.
  intros Ht Hins Hi. unfold insert. simpl. rewrite Ht.
  destruct Hins as [[-> Hl] | [[-> Hl] | [-> Hl]]];
    destruct c as [t|[[] cs]|g]; simpl in Hl |- *; try discriminate;
    (split; [reflexivity |]); eexists;
    (split; [by rewrite lookup_insert_eq | split; [reflexivity |]]); simpl;
    by apply vec_insert_end.
Qed.

Lemma gc_kept_sublist (acts : list (TileId * GcAction)) :
  gc_kept acts `sublist_of` map fst acts.
Proof.
  induction acts as [|[c a] acts IH]; simpl; [done |].
  destruct a; simpl; [by apply sublist_skip | by apply sublist_cons].
Qed.

Section GcInv.
Context {Pane : Type}.
Context (retain_pane : Pane -> bool).
Context (ts0 : gmap TileId (Tile Pane)) (root : TileId).

Lemma gc_inv_delete v ts x :
  gc_inv retain_pane ts0 root v ts -> x ∈ v -> gc_inv retain_pane ts0 root v (delete x ts).
Proof.
  intros (H1 & H2 & H3) Hx. split; [done | split].
  - intros k Hk. rewrite lookup_delete_ne by set_solver. auto.
  - intros k t' Hk Ht'. apply lookup_delete_Some in Ht' as [_ Ht']. eauto.
Qed.

Lemma gc_tile_id_inv f x v ts a v' ts' :
  gc_inv retain_pane ts0 root v ts -> reachable ts0 root x ->
  gc_tile_id retain_pane f x (v, ts) = Some (a, (v', ts')) -> gc_inv retain_pane ts0 root v' ts' /\ v ⊆ v'.
Proof.
  revert x v ts a v' ts'. induction f as [|f IH]; intros x v ts a v' ts' Hinv Hx Hrun;
    [discriminate |].
  simpl in Hrun. destruct (ts !! x) as [tile|] eqn:Htx.
  2:{ injection Hrun as <- <- <-. done. }
  destruct (decide (x ∈ v)) as [Hv | Hv].
  { injection Hrun as <- <- <-. split; [by apply gc_inv_delete | done]. }
  destruct Hinv as (H1 & H2 & H3).
  assert (Ht0 : ts0 !! x = Some tile) by (rewrite <- H2 by done; done).
  assert (Hmid : gc_inv retain_pane ts0 root ({[x]} ∪ v) (delete x ts)).
  { split; [| split].
    - intros k Hk. apply elem_of_union in Hk as [Hk | Hk].
      + apply elem_of_singleton in Hk as ->. by split.
      + auto.
    - intros k Hk. rewrite lookup_delete_ne by set_solver. apply H2. set_solver.
    - intros k t' Hk Ht'. apply lookup_delete_Some in Ht' as [Hkx Ht'].
      apply H3; [set_solver | done]. }
  destruct tile as [p|c].
  - destruct (retain_pane p) eqn:Hp; injection Hrun as <- <- <-; (split; [| set_solver]).
    + destruct Hmid as (M1 & M2 & M3). split; [done | split].
      * intros k Hk. rewrite lookup_insert_ne by set_solver. auto.
      * intros k t' Hk Ht'. rewrite lookup_insert in Ht'. case_decide as Hkx.
        -- subst k. injection Ht' as <-. exists (TilePane p). simpl. auto.
        -- auto.
    + exact Hmid.
  - destruct (visit_children (gc_tile_id retain_pane f) (container_children c)
                ({[x]} ∪ v, delete x ts)) as [[acts [v1 ts1]]|] eqn:Hvis; [| discriminate].
    injection Hrun as <- <- <-.
    assert (Hloop : forall cs v ts acts v' ts',
              gc_inv retain_pane ts0 root v ts -> (forall ch, ch ∈ cs -> reachable ts0 root ch) ->
              visit_children (gc_tile_id retain_pane f) cs (v, ts) = Some (acts, (v', ts')) ->
              gc_inv retain_pane ts0 root v' ts' /\ v ⊆ v').
    { clear -IH. induction cs as [|ch cs IHcs]; intros v ts acts v' ts' Hi Hr Hrun;
        simpl in Hrun.
      - injection Hrun as <- <- <-. done.
      - destruct (gc_tile_id retain_pane f ch (v, ts)) as [[a1 [v2 ts2]]|] eqn:E1;
          [| discriminate].
        destruct (visit_children (gc_tile_id retain_pane f) cs (v2, ts2))
          as [[acts2 [v3 ts3]]|] eqn:E2; [| discriminate].
        injection Hrun as <- <- <-.
        destruct (IH ch v ts a1 v2 ts2 Hi (Hr ch ltac:(set_solver)) E1) as [Hi2 Hs2].
        destruct (IHcs v2 ts2 acts2 v3 ts3 Hi2 ltac:(set_solver) E2) as [Hi3 Hs3].
        split; [done | set_solver]. }
    destruct (Hloop _ _ _ _ _ _ Hmid
                ltac:(intros ch Hch; eapply reachable_child; eauto) Hvis) as [Hi1 Hs1].
    pose proof (visit_children_fst _ _ _ _ _ Hvis) as Hfst.
    destruct Hi1 as (N1 & N2 & N3). split; [split; [done | split] | set_solver].
    + intros k Hk. rewrite lookup_insert_ne by set_solver. auto.
    + intros k t' Hk Ht'. rewrite lookup_insert in Ht'. case_decide as Hkx.
      * subst k. injection Ht' as <-. exists (TileContainer c). split; [done |].
        exists (gc_kept acts). split; [| done]. rewrite <- Hfst. apply gc_kept_sublist.
      * auto.
Qed.

End GcInv.

Lemma gc_root_inv {Pane} (retain_pane : Pane -> bool) root_id ts ts' :
  gc_root retain_pane root_id ts = Some ts' ->
  forall k t', ts' !! k = Some t' ->
    reachable ts root_id k /\ exists t, ts !! k = Some t /\ gc_shrunk retain_pane t t'.
Proof.
  intros Hrun k t' Hk. unfold gc_root in Hrun.
  destruct (gc_tile_id retain_pane (S (size ts)) root_id (∅, ts)) as [[a [v ts1]]|] eqn:E;
    [| discriminate].
  injection Hrun as <-.
  destruct (gc_tile_id_inv retain_pane ts root_id (S (size ts)) root_id ∅ ts a v ts1
              ltac:(unfold gc_inv; split; [set_solver | split; [done | set_solver]])
              (reachable_root _ _) E) as [Hi _].
  destruct Hi as (H1 & H2 & H3).
  apply map_lookup_filter_Some in Hk as [Hk Hkv]. simpl in Hkv.
  split; [exact (proj1 (H1 k Hkv)) | eauto].
Qed.

Lemma gc_tile_id_visited {Pane} (retain_pane : Pane -> bool) f x v (ts : gmap TileId (Tile Pane))
    a v' ts' :
  gc_tile_id retain_pane f x (v, ts) = Some (a, (v', ts')) -> v ⊆ v'.
Proof.
  revert x v ts a v' ts'. induction f as [|f IH]; intros x v ts a v' ts' Hrun; [discriminate |].
  simpl in Hrun. destruct (ts !! x) as [[p|c]|]; [| | injection Hrun as <- <- <-; set_solver].
  all: destruct (decide (x ∈ v)); [injection Hrun as <- <- <-; set_solver |].
  - destruct (retain_pane p); injection Hrun as <- <- <-; set_solver.
  - destruct (visit_children (gc_tile_id retain_pane f) (container_children c)
                ({[x]} ∪ v, delete x ts)) as [[acts [v1 ts1]]|] eqn:Hvis; [| discriminate].
    injection Hrun as <- <- <-.
    pose proof (visit_children_preserve (gc_tile_id retain_pane f)
                  (fun s s' => s.1 ⊆ s'.1) ltac:(intros; set_solver) ltac:(intros ? ? ?; simpl; set_solver)
                  ltac:(intros c' [v2 ts2] a' [v3 ts3] E; simpl; eapply IH; exact E)
                  _ _ _ _ Hvis) as Hs.
    simpl in Hs. set_solver.
Qed.

(** X6: every tile left by [gc_root] was a key of the arena before the
    collection and is reachable from the root in that arena. *)
Theorem gc_root_only_reachable {Pane} (retain_pane : Pane -> bool) root_id
    (ts ts' : gmap TileId (Tile Pane)) :
  gc_root retain_pane root_id ts = Some ts' ->
  forall k, is_Some (ts' !! k) -> reachable ts root_id k /\ is_Some (ts !! k).
Proof.
  intros Hrun k [t' Hk].
  destruct (gc_root_inv retain_pane root_id ts ts' Hrun k t' Hk) as (Hr & t & Ht & _).
  eauto.
Qed.


(** X8: [gc_root] with a root that is not a key empties the arena; a
    root that is a container, or a pane [retain_pane] accepts, stays a
    key. *)
Theorem gc_root_root {Pane} (retain_pane : Pane -> bool) root_id (ts : gmap TileId (Tile Pane)) :
  (ts !! root_id = None -> gc_root retain_pane root_id ts = Some ∅) /\
  (forall ts' t, gc_root retain_pane root_id ts = Some ts' -> ts !! root_id = Some t ->
     (forall p, t = TilePane p -> retain_pane p = true) -> is_Some (ts' !! root_id)).
Proof.
  split.
  - intros Hn. unfold gc_root. simpl. rewrite Hn. f_equal.
    apply map_empty. intros k. apply map_lookup_filter_None. right. intros t _. set_solver.
  - intros ts' t Hrun Ht Hp. unfold gc_root in Hrun. simpl in Hrun. rewrite Ht in Hrun.
    rewrite decide_False in Hrun by set_solver.
    destruct t as [p|c].
    + rewrite (Hp p eq_refl) in Hrun. injection Hrun as <-.
      exists (TilePane p). apply map_lookup_filter_Some. rewrite lookup_insert_eq. set_solver.
    + destruct (visit_children (gc_tile_id retain_pane (size ts)) (container_children c)
                  ({[root_id]} ∪ ∅, delete root_id ts)) as [[acts [v1 ts1]]|] eqn:Hvis;
        [| discriminate].
      injection Hrun as <-.
      pose proof (visit_children_preserve (gc_tile_id retain_pane (size ts))
                    (fun s s' => s.1 ⊆ s'.1) ltac:(intros; set_solver) ltac:(intros ? ? ?; simpl; set_solver)
                    ltac:(intros c' [v2 ts2] a' [v3 ts3] E; simpl;
                          eapply gc_tile_id_visited; exact E)
                    _ _ _ _ Hvis) as Hs.
      simpl in Hs. eexists. apply map_lookup_filter_Some. rewrite lookup_insert_eq. split; [reflexivity | simpl; set_solver].
Qed.

Lemma same_kind_refl {Pane} (t : Tile Pane) : same_kind t t.
Proof. by destruct t. Qed.

Lemma same_kind_trans {Pane} (t1 t2 t3 : Tile Pane) :
  same_kind t1 t2 -> same_kind t2 t3 -> same_kind t1 t3.
Proof. destruct t1, t2, t3; simpl; intros; try contradiction; congruence. Qed.

Lemma container_simplify_children_layout c acts :
  container_layout (container_simplify_children c acts) = container_layout c.
Proof. by destruct c as [t|[d cs]|g]. Qed.

Lemma kind_frame_refl {Pane} (s : gmap TileId (Tile Pane)) : kind_frame s s.
Proof. intros k t' H. exists t'. split; [done | apply same_kind_refl]. Qed.

Lemma kind_frame_trans {Pane} (s1 s2 s3 : gmap TileId (Tile Pane)) :
  kind_frame s1 s2 -> kind_frame s2 s3 -> kind_frame s1 s3.
Proof.
  intros H12 H23 k t3 H3. destruct (H23 k t3 H3) as (t2 & H2 & K23).
  destruct (H12 k t2 H2) as (t1 & H1 & K12). exists t1. split; [done |].
  by eapply same_kind_trans.
Qed.

Lemma kind_frame_delete {Pane} (s : gmap TileId (Tile Pane)) x : kind_frame s (delete x s).
Proof.
  intros k t' H. apply lookup_delete_Some in H as [_ H]. exists t'.
  split; [done | apply same_kind_refl].
Qed.

Lemma kind_frame_restore {Pane} (s s' : gmap TileId (Tile Pane)) x t t' :
  s !! x = Some t -> same_kind t t' -> kind_frame (delete x s) s' ->
  kind_frame s (<[x := t']> s').
Proof.
  intros Hx K Hf k t2 H. rewrite lookup_insert in H. case_decide as Hk.
  - subst k. injection H as <-. eauto.
  - destruct (Hf k t2 H) as (t1 & H1 & K1). rewrite lookup_delete_ne in H1 by done. eauto.
Qed.

Lemma simplify_kind_frame {Pane} options f x (ts : gmap TileId (Tile Pane)) a ts' :
  simplify options f x ts = Some (a, ts') -> kind_frame ts ts'.
Proof.
  revert x ts a ts'. induction f as [|f IH]; intros x ts a ts' Hrun; [discriminate |].
  simpl in Hrun. destruct (ts !! x) as [tile|] eqn:Hx.
  2:{ injection Hrun as <- <-. apply kind_frame_refl. }
  destruct tile as [p|c].
  { injection Hrun as <- <-. eapply kind_frame_restore; [exact Hx | apply same_kind_refl |].
    apply kind_frame_refl. }
  destruct (visit_children (simplify options f) (container_children c) (delete x ts))
    as [[acts ts1]|] eqn:Hvis; [| discriminate].
  pose proof (visit_children_preserve (simplify options f) kind_frame kind_frame_refl
                kind_frame_trans ltac:(intros; eapply IH; eauto) _ _ _ _ Hvis) as Hf.
  destruct (simplify_decision options (container_simplify_children c acts) ts1);
    injection Hrun as <- <-.
  - eapply kind_frame_restore; [exact Hx | | exact Hf].
    simpl. apply container_simplify_children_layout.
  - eapply kind_frame_trans; [apply kind_frame_delete | exact Hf].
  - eapply kind_frame_trans; [apply kind_frame_delete | exact Hf].
Qed.

(** X9: [simplify] creates no tile and changes no tile's kind: every
    tile of the result is at a key of the arena before, holding a tile of
    the same kind (the same pane, or a container of the same layout). *)
Theorem simplify_only_prunes {Pane} options it (ts : gmap TileId (Tile Pane)) a ts' :
  run_simplify options it ts = Some (a, ts') ->
  forall k t', ts' !! k = Some t' -> exists t, ts !! k = Some t /\ same_kind t t'.
Proof. intros Hrun. exact (simplify_kind_frame options _ it ts a ts' Hrun). Qed.

(** X10: after [simplify it], on [Keep] the tile [it] is in the arena,
    on [Remove] or [Replace] it is not, and the id a [Replace] names is a
    key of the arena. *)
Theorem simplify_action_arena {Pane} options it (ts : gmap TileId (Tile Pane)) a ts' :
  run_simplify options it ts = Some (a, ts') ->
  (a = Keep -> is_Some (ts' !! it)) /\ (a <> Keep -> ts' !! it = None) /\
  (forall r, a = Replace r -> is_Some (ts' !! r)).
Proof.
  intros Hrun. unfold run_simplify in Hrun.
  destruct (simplify_result options _ it ts a ts' Hrun) as [HK HR].
  split; [| split].
  - intros Ha. exact (simplified_present options ts' it (HK Ha)).
  - exact (proj2 (simplify_dom options _ it ts a ts' Hrun)).
  - intros r Ha. exact (simplified_present options ts' r (HR r Ha)).
Qed.

Lemma reachable_delete_sub {Pane} (m : gmap TileId (Tile Pane)) z a x :
  reachable (delete z m) a x -> reachable m a x.
Proof.
  intros Hr. induction Hr as [|b c d Hb IH Hc Hd]; [apply reachable_root |].
  apply lookup_delete_Some in Hc as [_ Hc]. eapply reachable_child; eauto.
Qed.

Lemma is_pane_delete_le {Pane} (m : gmap TileId (Tile Pane)) z y :
  is_pane (m !! y) = false -> is_pane (delete z m !! y) = false.
Proof. intros H. rewrite lookup_delete. by case_decide. Qed.

Lemma make_all_panes_noop {Pane} f b it (m : gmap TileId (Tile Pane)) rng :
  size m < f ->
  (b = false -> is_pane (m !! it) = false) ->
  (forall x c y, reachable m it x -> m !! x = Some (TileContainer c) ->
     container_layout c <> LayoutTabs -> y ∈ container_children c -> is_pane (m !! y) = false) ->
  make_all_panes_children_of_tabs f b it (m, rng) = Some (m, rng).
Proof.
  revert b it m. induction f as [|f IH]; intros b it m Hf Hb Hall; [lia |].
  simpl. destruct (m !! it) as [tile|] eqn:Hit; [| done].
  pose proof (size_delete_lt m it tile Hit) as Hsz.
  destruct tile as [p|c].
  - destruct b; simpl.
    + by rewrite insert_delete_eq, insert_id.
    + specialize (Hb eq_refl). discriminate.
  - assert (Hloop : forall cs, (forall ch, ch ∈ cs -> ch ∈ container_children c) ->
              for_each_child (make_all_panes_children_of_tabs f
                                (bool_decide (container_layout c = LayoutTabs)))
                cs (delete it m, rng) = Some (delete it m, rng)).
    { induction cs as [|ch cs IHcs]; intros Hcs; simpl; [done |].
      rewrite IH; [apply IHcs; set_solver | lia | |].
      - intros Htabs. apply is_pane_delete_le.
        apply (Hall it c ch (reachable_root _ _) Hit); [| set_solver].
        intros E. rewrite (bool_decide_eq_true_2 _ E) in Htabs. discriminate.
      - intros x c' y Hx Hc' Ht' Hy. apply is_pane_delete_le.
        apply lookup_delete_Some in Hc' as [_ Hc'].
        apply (Hall x c' y); [| done | done | done].
        apply (reachable_from_child m it c ch x Hit); [apply Hcs; set_solver | eapply reachable_delete_sub; eauto]. }
    rewrite Hloop by done. by rewrite insert_delete_eq, insert_id.
Qed.

Lemma make_all_panes_reachable_tabs {Pane} (ts : gmap TileId (Tile Pane)) rng root_id ts' rng' :
  well_supplied ts rng ->
  run_make_all_panes_children_of_tabs false root_id ts rng = Some (ts', rng') ->
  is_pane (ts' !! root_id) = false /\
  (forall y, reachable ts' root_id y -> is_pane (ts' !! y) = true ->
     forall x c, reachable ts' root_id x -> ts' !! x = Some (TileContainer c) ->
                 y ∈ container_children c -> container_layout c = LayoutTabs).
Proof.
  intros Hw Hrun. unfold run_make_all_panes_children_of_tabs in Hrun.
  destruct (ts !! root_id) as [troot|] eqn:Hroot.
  2:{ simpl in Hrun. rewrite Hroot in Hrun. injection Hrun as <- <-.
      rewrite Hroot. split; [done |]. intros y Hr Hp.
      apply reachable_first_step in Hr as [<- | (c & ch & Hc & _)];
        rewrite Hroot in *; discriminate. }
  assert (Hlow : (root_id < rng)%N) by exact (proj1 (Hw root_id troot Hroot)).
  pose proof (well_supplied_tabs_inv ts rng Hw) as Hinv.
  destruct (make_all_panes_adv rng _ false root_id ts rng ts' rng' Hinv
              ltac:(intros; by left) Hrun) as (Hinv' & Hrng' & Hadv).
  destruct (make_all_panes_done ts rng Hw _ false root_id ts rng ts' rng' ∅ ∅ Hinv
              ltac:(intros; by left)
              ltac:(split; [set_solver | intros; done])
              ltac:(intros ? ? ?; set_solver) Hrun)
    as (D & _ & _ & Hd & Hroot_done & Hroot_np).
  assert (HinD : forall x c, reachable ts root_id x -> ts !! x = Some (TileContainer c) ->
                  x ∈ D)
    by (intros x c Hr Hc; eapply tabs_done_closed; eauto;
        intros c' Hc'; destruct (Hroot_done c' Hc'); set_solver).
  split; [exact (Hroot_np Hlow eq_refl) |].
  intros y Hr Hp x c Hx Hc Hy.
  destruct (decide (container_layout c = LayoutTabs)) as [| Ht]; [done | exfalso].
  destruct (tabs_adv_reachable rng ts ts' root_id x Hadv Hx c Hc) as [[Hc0 Hr0] | [? _]];
    [| contradiction].
  pose proof (proj1 (Hd x c (HinD x c Hr0 Hc0) Hc0) Ht y Hy) as Hnp. congruence.
Qed.

(** X12: with a fresh supply, running
    [make_all_panes_children_of_tabs false root_id] again on the arena and
    supply left by a first run changes nothing and draws no id. *)
Theorem make_all_panes_idempotent {Pane} root_id (ts : gmap TileId (Tile Pane)) rng ts' rng' :
  well_supplied ts rng ->
  run_make_all_panes_children_of_tabs false root_id ts rng = Some (ts', rng') ->
  run_make_all_panes_children_of_tabs false root_id ts' rng' = Some (ts', rng').
Proof.
  intros Hw Hrun.
  destruct (make_all_panes_reachable_tabs ts rng root_id ts' rng' Hw Hrun) as [Hroot Htabs].
  unfold run_make_all_panes_children_of_tabs.
  apply make_all_panes_noop; [lia | done |].
  intros x c y Hx Hc Ht Hy. destruct (is_pane (ts' !! y)) eqn:Hp; [| done].
  exfalso. apply Ht. eapply Htabs; [eapply reachable_child; eauto | exact Hp | exact Hx | exact Hc | exact Hy].
Qed.

(** X11: with a fresh supply, [make_all_panes_children_of_tabs] never
    removes or changes a container; it keeps every pane, in place or
    moved to a free id under a one-child Tabs at its old id; it adds only
    keys drawn from the supply, and never moves the supply back. *)
Theorem make_all_panes_keeps_tiles {Pane} b root_id (ts : gmap TileId (Tile Pane)) rng ts' rng' :
  well_supplied ts rng ->
  run_make_all_panes_children_of_tabs b root_id ts rng = Some (ts', rng') ->
  (rng <= rng')%N /\
  (forall k c, ts !! k = Some (TileContainer c) -> ts' !! k = Some (TileContainer c)) /\
  (forall k p, ts !! k = Some (TilePane p) ->
     ts' !! k = Some (TilePane p) \/
     exists n, ts !! n = None /\ ts' !! k = Some (TileContainer (Container_new_tabs [n])) /\
               ts' !! n = Some (TilePane p)) /\
  (forall k, ts !! k = None -> is_Some (ts' !! k) -> (rng <= k < rng')%N).
Proof.
  intros Hw Hrun. unfold run_make_all_panes_children_of_tabs in Hrun.
  pose proof (well_supplied_tabs_inv ts rng Hw) as Hinv.
  destruct (make_all_panes_adv rng _ b root_id ts rng ts' rng' Hinv
              ltac:(intros; destruct (ts !! root_id) as [t|] eqn:E;
                    [left; exact (proj1 (Hw root_id t E)) | by right]) Hrun)
    as (Hinv' & Hrng' & A1 & A2 & A3 & A4 & A5).
  split; [done | split; [exact A1 | split]].
  - intros k p Hk. destruct (A5 k p (proj1 (Hw k _ Hk)) Hk) as [H | (n & _ & Hn & H1 & H2)];
      [by left | right; eauto].
  - intros k Hk [t Ht]. split.
    + destruct (N.lt_ge_cases k rng) as [Hlt | Hge]; [| done].
      rewrite (A2 k Hlt Hk) in Ht. discriminate.
    + exact (proj1 (proj2 Hinv') k t Ht).
Qed.

Lemma for_each_child_indexed_preserve {St : Type} (f : nat -> TileId -> St -> option St)
    (R : St -> St -> Prop) :
  (forall s, R s s) -> (forall s1 s2 s3, R s1 s2 -> R s2 s3 -> R s1 s3) ->
  (forall i c s s', f i c s = Some s' -> R s s') ->
  forall cs i s s', for_each_child_indexed f i cs s = Some s' -> R s s'.
Proof.
  intros Hrefl Htrans Hf cs. induction cs as [|c cs IH]; intros i s s' Hrun; simpl in Hrun.
  - injection Hrun as <-. apply Hrefl.
  - destruct (f i c s) as [s1|] eqn:E; [| discriminate]. eauto.
Qed.

Lemma reachable_split {Pane} (m : gmap TileId (Tile Pane)) x y :
  reachable m x y ->
  y = x \/ exists c ch, m !! x = Some (TileContainer c) /\ ch ∈ container_children c /\
                        reachable (delete x m) ch y.
Proof.
  intros Hr. induction Hr as [|a c b Ha IH Hc Hb]; [by left |].
  destruct (decide (b = x)) as [-> | Hbx]; [by left |]. right.
  destruct (decide (a = x)) as [-> | Hax].
  - exists c, b. split; [done | split; [done | apply reachable_root]].
  - destruct IH as [-> | (c0 & ch & Hc0 & Hch & Hr0)]; [done |].
    exists c0, ch. split; [done | split; [done |]].
    eapply reachable_child; [exact Hr0 | | exact Hb]. by rewrite lookup_delete_ne by done.
Qed.

Section LayoutFacts.
Context {Pane : Type}.
Context (child_rect : Container -> Rect -> nat -> Rect).

Lemma layout_frame_refl (s : gmap TileId (Tile Pane) * gmap TileId Rect) : layout_frame s s.
Proof. done. Qed.

Lemma layout_frame_trans (s1 s2 s3 : gmap TileId (Tile Pane) * gmap TileId Rect) : layout_frame s1 s2 -> layout_frame s2 s3 -> layout_frame s1 s3.
Proof.
  intros (A1 & A2 & A3) (B1 & B2 & B3). split; [congruence | split].
  - intros k Hk. rewrite B2 by congruence. auto.
  - auto.
Qed.

Lemma layout_tile_frame f tile_rect x s s' :
  layout_tile child_rect f tile_rect x s = Some s' -> @layout_frame Pane s s'.
Proof.
  revert tile_rect x s s'. induction f as [|f IH]; intros tile_rect x [ts rects] s' Hrun;
    [discriminate |].
  simpl in Hrun. destruct (ts !! x) as [tile|] eqn:Hx.
  2:{ injection Hrun as <-. apply layout_frame_refl. }
  assert (Hmid : forall ts1 rects1,
            layout_frame (delete x ts, <[x := tile_rect]> rects) (ts1, rects1) ->
            layout_frame (ts, rects) (<[x := tile]> ts1, rects1)).
  { intros ts1 rects1 (A1 & A2 & A3). simpl in *. subst ts1. split; [| split]; simpl.
    - by rewrite insert_delete_eq, insert_id.
    - intros k Hk. assert (k <> x) by congruence.
      rewrite A2 by (by rewrite lookup_delete_ne). by rewrite lookup_insert_ne.
    - intros k Hk. apply A3. rewrite lookup_insert. case_decide; [done | exact Hk]. }
  destruct tile as [p|c].
  - injection Hrun as <-. apply Hmid. apply layout_frame_refl.
  - unfold layout_recursive in Hrun.
    destruct (for_each_child_indexed
                (fun i ch => layout_tile child_rect f (child_rect c tile_rect i) ch) 0
                (container_children c)
                (delete x ts, <[x := tile_rect]> rects)) as [[ts1 rects1]|] eqn:Hloop;
      [| discriminate].
    injection Hrun as <-. apply Hmid.
    eapply (for_each_child_indexed_preserve _ layout_frame layout_frame_refl layout_frame_trans);
      [| exact Hloop].
    intros i ch s s'. apply IH.
Qed.

Lemma layout_tile_covers f tile_rect x (ts : gmap TileId (Tile Pane)) rects ts' rects' :
  layout_tile child_rect f tile_rect x (ts, rects) = Some (ts', rects') ->
  forall k, reachable ts x k -> is_Some (ts !! k) -> is_Some (rects' !! k).
Proof.
  revert tile_rect x ts rects ts' rects'. induction f as [|f IH];
    intros tile_rect x ts rects ts' rects' Hrun k Hr Hk; [discriminate |].
  pose proof (layout_tile_frame (S f) tile_rect x _ _ Hrun) as Hfr.
  simpl in Hrun. destruct (ts !! x) as [tile|] eqn:Hx.
  2:{ destruct Hk as [t0 Hk]. apply reachable_first_step in Hr as [<- | (c & ch & Hc & _)]; congruence. }
  destruct (decide (k = x)) as [-> | Hkx].
  { destruct tile as [p|c].
    - injection Hrun as <- <-. rewrite lookup_insert_eq. eauto.
    - unfold layout_recursive in Hrun.
      destruct (for_each_child_indexed
                  (fun i ch => layout_tile child_rect f (child_rect c tile_rect i) ch) 0
                  (container_children c)
                  (delete x ts, <[x := tile_rect]> rects)) as [[ts1 rects1]|] eqn:Hloop;
        [| discriminate].
      injection Hrun as <- <-.
      apply (for_each_child_indexed_preserve _ layout_frame layout_frame_refl layout_frame_trans
               ltac:(intros i ch s s'; apply layout_tile_frame) _ _ _ _ Hloop).
      simpl. rewrite lookup_insert_eq. eauto. }
  apply reachable_split in Hr as [-> | (c & ch & Hc & Hch & Hr)]; [done |].
  rewrite Hc in Hx. injection Hx as <-. unfold layout_recursive in Hrun.
  destruct (for_each_child_indexed
              (fun i ch => layout_tile child_rect f (child_rect c tile_rect i) ch) 0
              (container_children c)
              (delete x ts, <[x := tile_rect]> rects)) as [[ts1 rects1]|] eqn:Hloop;
    [| discriminate].
  injection Hrun as <- <-.
  assert (Hk1 : is_Some (delete x ts !! k)) by (by rewrite lookup_delete_ne).
  assert (Hl : forall cs i r m' r', ch ∈ cs ->
            for_each_child_indexed
              (fun i ch => layout_tile child_rect f (child_rect c tile_rect i) ch) i cs
              (delete x ts, r) = Some (m', r') -> is_Some (r' !! k)).
  { clear Hloop. induction cs as [|c0 cs IHcs]; intros i r m' r' Hin Hl; simpl in Hl;
      [by apply not_elem_of_nil in Hin |].
    destruct (layout_tile child_rect f (child_rect c tile_rect i) c0 (delete x ts, r))
      as [[m2 r2]|] eqn:E; [| discriminate].
    pose proof (layout_tile_frame f _ c0 _ _ E) as (F1 & _ & _). simpl in F1. subst m2.
    apply elem_of_cons in Hin as [-> | Hin].
    - pose proof (IH _ _ _ _ _ _ E k Hr Hk1) as Hs.
      apply (for_each_child_indexed_preserve _ layout_frame layout_frame_refl
               layout_frame_trans ltac:(intros i' ch' s s'; apply layout_tile_frame)
               _ _ _ _ Hl).
      exact Hs.
    - eapply IHcs; eauto. }
  exact (Hl _ _ _ _ _ Hch Hloop).
Qed.

End LayoutFacts.


(** X14: after [layout_tile], every key reachable from [tile_id] has a
    rectangle. *)
Theorem layout_tile_covers_reachable {Pane} child_rect f tile_rect tile_id
    (ts : gmap TileId (Tile Pane)) rects ts' rects' :
  layout_tile child_rect f tile_rect tile_id (ts, rects) = Some (ts', rects') ->
  forall k, reachable ts tile_id k -> is_Some (ts !! k) -> is_Some (rects' !! k).
Proof. apply layout_tile_covers. Qed.

Section TileUiFacts.
Context {Pane : Type}.
Context (pane_ui : TileId -> Pane -> bool).

Lemma ui_frame_refl (s : UiState Pane) : ui_frame s s.
Proof. done. Qed.

Lemma ui_frame_trans (s1 s2 s3 : UiState Pane) : ui_frame s1 s2 -> ui_frame s2 s3 -> ui_frame s1 s3.
Proof. intros (A1 & A2 & A3 & A4) (B1 & B2 & B3 & B4). repeat split; congruence. Qed.

Lemma tile_ui_frame f x st st' : tile_ui pane_ui f x st = Some st' -> ui_frame st st'.
Proof.
  revert x st st'. induction f as [|f IH]; intros x st st' Hrun; [discriminate |].
  simpl in Hrun. destruct (try_rect (ui_rects st) x) as [r|]; [| injection Hrun as <-; done].
  destruct (ui_tiles st !! x) as [tile|] eqn:Hx; [| injection Hrun as <-; done].
  set (dc1 := on_tile (if decide (Some x = dragged_tile_id (ui_drop st))
                       then set_enabled (ui_drop st) false else ui_drop st) x r) in Hrun.
  assert (Hdc1 : dragged_tile_id dc1 = dragged_tile_id (ui_drop st)).
  { subst dc1. unfold on_tile. case_decide; simpl; destruct (enabled _); reflexivity. }
  set (st1 := {| ui_tiles := delete x (ui_tiles st); ui_rects := ui_rects st;
                 ui_drop := dc1; ui_dragged := ui_dragged st |}) in Hrun.
  assert (Hfin : forall st2, ui_tiles st2 = ui_tiles st1 -> ui_rects st2 = ui_rects st1 ->
            dragged_tile_id (ui_drop st2) = dragged_tile_id (ui_drop st1) ->
            ui_frame st {| ui_tiles := <[x := tile]> (ui_tiles st2); ui_rects := ui_rects st2;
                           ui_drop := set_enabled (ui_drop st2) (enabled (ui_drop st));
                           ui_dragged := ui_dragged st2 |}).
  { intros st2 T R D. split; [| split; [| split]]; simpl.
    - rewrite T. simpl. by rewrite insert_delete_eq, insert_id.
    - by rewrite R.
    - reflexivity.
    - rewrite D. exact Hdc1. }
  destruct tile as [p|c].
  - injection Hrun as <-. apply Hfin; destruct (pane_ui x p); reflexivity.
  - unfold container_ui in Hrun.
    destruct (for_each_child (tile_ui pane_ui f) (container_children c) st1) as [st2|] eqn:Hloop;
      [| discriminate].
    injection Hrun as <-.
    destruct (for_each_child_preserve (tile_ui pane_ui f) ui_frame ui_frame_refl ui_frame_trans
                ltac:(intros ? ? ?; apply IH) _ _ _ Hloop) as (T & R & _ & D).
    by apply Hfin.
Qed.

Lemma tile_ui_no_candidates f x st st' :
  enabled (ui_drop st) = false \/ dragged_tile_id (ui_drop st) = Some x ->
  tile_ui pane_ui f x st = Some st' -> candidates (ui_drop st') = candidates (ui_drop st).
Proof.
  revert x st st'. induction f as [|f IH]; intros x st st' Hoff Hrun; [discriminate |].
  simpl in Hrun. destruct (try_rect (ui_rects st) x) as [r|]; [| injection Hrun as <-; done].
  destruct (ui_tiles st !! x) as [tile|] eqn:Hx; [| injection Hrun as <-; done].
  set (dc0 := if decide (Some x = dragged_tile_id (ui_drop st))
              then set_enabled (ui_drop st) false else ui_drop st) in Hrun.
  assert (Hdc0 : enabled dc0 = false /\ candidates dc0 = candidates (ui_drop st)).
  { subst dc0. case_decide as Hd; [done |]. split; [| done].
    destruct Hoff as [Hoff | Hoff]; [done | congruence]. }
  assert (Hdc1 : on_tile dc0 x r = dc0) by (unfold on_tile; by rewrite (proj1 Hdc0)).
  rewrite Hdc1 in Hrun.
  set (st1 := {| ui_tiles := delete x (ui_tiles st); ui_rects := ui_rects st;
                 ui_drop := dc0; ui_dragged := ui_dragged st |}) in Hrun.
  destruct tile as [p|c].
  - injection Hrun as <-. simpl. destruct (pane_ui x p); apply (proj2 Hdc0).
  - unfold container_ui in Hrun.
    destruct (for_each_child (tile_ui pane_ui f) (container_children c) st1) as [st2|] eqn:Hloop;
      [| discriminate].
    injection Hrun as <-. simpl.
    pose proof (for_each_child_preserve (tile_ui pane_ui f)
                  (fun s s' => enabled (ui_drop s) = false ->
                     enabled (ui_drop s') = false /\ candidates (ui_drop s') = candidates (ui_drop s))
                  ltac:(done)
                  ltac:(intros s1 s2 s3 H12 H23 Hs1; destruct (H12 Hs1) as [E2 C2];
                        destruct (H23 E2) as [E3 C3]; split; congruence)
                  ltac:(intros ch s s' Hs Hs0;
                        pose proof (tile_ui_frame f ch s s' Hs) as (_ & _ & E & _);
                        split; [congruence | eapply IH; [left; exact Hs0 | exact Hs]])
                  _ _ _ Hloop (proj1 Hdc0)) as [_ C].
    rewrite C. apply (proj2 Hdc0).
Qed.

End TileUiFacts.


(** X16: when [tile_id] is the tile being dragged, [tile_ui] records no
    drop candidate, for the tile or for any tile below it. *)
Theorem tile_ui_dragged_no_drop {Pane} pane_ui f tile_id (st st' : UiState Pane) :
  dragged_tile_id (ui_drop st) = Some tile_id ->
  tile_ui pane_ui f tile_id st = Some st' ->
  candidates (ui_drop st') = candidates (ui_drop st).
Proof. intros Hd. apply tile_ui_no_candidates. by right. Qed.


Lemma insert_keeps_tiles_witness :
  tabs_example_arena !! 5%N = None /\
  let '(ts', rng') := insert {| parent_id := 2; insertion := InsTabs 0 |} 4%N
                        tabs_example_arena 5%N in
  (forall k, is_Some (tabs_example_arena !! k) -> is_Some (ts' !! k)) /\
  (forall k, k <> 2%N -> k <> 5%N -> ts' !! k = tabs_example_arena !! k) /\
  ((rng' = 5%N /\ size ts' = size tabs_example_arena) \/
   (rng' = N.succ 5%N /\ size ts' = S (size tabs_example_arena))).
Proof.
  split; [reflexivity |].
  exact (insert_keeps_tiles {| parent_id := 2; insertion := InsTabs 0 |} 4%N
           tabs_example_arena 5%N ltac:(reflexivity)).
Defined.

Lemma insert_places_child_witness :
  tabs_example_arena !! 3%N = Some (TileContainer (Container_new_tabs [4%N])) /\
  let ts' := fst (insert {| parent_id := 3; insertion := InsTabs 5 |} 2%N tabs_example_arena 5%N) in
  exists T', ts' !! 3%N = Some T' /\ 2%N ∈ tile_children T' /\
    (forall i, InsTabs 5 = InsTabs i ->
       exists t, T' = TileContainer (ContainerTabs t) /\ tabs_active t = 2%N).
Proof.
  split; [reflexivity |].
  exact (insert_places_child {| parent_id := 3; insertion := InsTabs 5 |} 2%N
           tabs_example_arena 5%N _ ltac:(reflexivity)).
Defined.

Lemma insert_index_past_end_witness :
  (tabs_example_arena !! 1%N
     = Some (TileContainer (ContainerLinear (Linear_new Horizontal [2%N; 3%N]))) /\
   length (container_children (ContainerLinear (Linear_new Horizontal [2%N; 3%N]))) <= 7) /\
  let '(ts', rng') := insert {| parent_id := 1; insertion := InsHorizontal 7 |} 4%N
                        tabs_example_arena 5%N in
  rng' = 5%N /\
  exists c', ts' !! 1%N = Some (TileContainer c') /\
    container_layout c' = LayoutHorizontal /\ container_children c' = [2%N; 3%N; 4%N].
Proof.
  split; [split; [reflexivity | simpl; lia] |].
  exact (insert_index_past_end tabs_example_arena 1%N
           (ContainerLinear (Linear_new Horizontal [2%N; 3%N])) (InsHorizontal 7) 7 4%N 5%N
           ltac:(reflexivity) ltac:(right; left; split; reflexivity) ltac:(simpl; lia)).
Defined.

Lemma gc_root_only_reachable_witness :
  let ts := <[9%N := TilePane 5]> tabs_example_arena in
  gc_root (fun _ => true) 1%N ts = Some tabs_example_arena /\
  forall k, is_Some (tabs_example_arena !! k) -> reachable ts 1%N k /\ is_Some (ts !! k).
Proof.
  intros ts. assert (E : gc_root (fun _ => true) 1%N ts = Some tabs_example_arena)
    by (vm_compute; reflexivity).
  split; [exact E | exact (gc_root_only_reachable (fun _ => true) 1%N ts _ E)].
Defined.


Lemma gc_root_root_witness :
  tabs_example_arena !! 7%N = None /\ gc_root (fun _ => true) 7%N tabs_example_arena = Some ∅.
Proof.
  split; [reflexivity |].
  exact (proj1 (gc_root_root (fun _ => true) 7%N tabs_example_arena) ltac:(reflexivity)).
Defined.

Lemma simplify_only_prunes_witness :
  exists a ts', run_simplify opts_single_tabs 1%N tabs_example_arena = Some (a, ts') /\
    forall k t', ts' !! k = Some t' ->
      exists t, tabs_example_arena !! k = Some t /\ same_kind t t'.
Proof.
  eexists _, _. split; [vm_compute; reflexivity |].
  refine (simplify_only_prunes opts_single_tabs 1%N tabs_example_arena _ _ _).
  vm_compute. reflexivity.
Defined.

Lemma simplify_action_arena_witness :
  exists a ts', run_simplify opts_single_tabs 3%N tabs_example_arena = Some (a, ts') /\
    (a = Keep -> is_Some (ts' !! 3%N)) /\ (a <> Keep -> ts' !! 3%N = None) /\
    (forall r, a = Replace r -> is_Some (ts' !! r)).
Proof.
  eexists _, _. split; [vm_compute; reflexivity |].
  refine (simplify_action_arena opts_single_tabs 3%N tabs_example_arena _ _ _).
  vm_compute. reflexivity.
Defined.

Lemma make_all_panes_keeps_tiles_witness :
  well_supplied tabs_example_arena 5%N /\
  exists ts' rng',
    run_make_all_panes_children_of_tabs false 1%N tabs_example_arena 5%N = Some (ts', rng') /\
    (5 <= rng')%N /\
    (forall k c, tabs_example_arena !! k = Some (TileContainer c) ->
                 ts' !! k = Some (TileContainer c)) /\
    (forall k p, tabs_example_arena !! k = Some (TilePane p) ->
       ts' !! k = Some (TilePane p) \/
       exists n, tabs_example_arena !! n = None /\
                 ts' !! k = Some (TileContainer (Container_new_tabs [n])) /\
                 ts' !! n = Some (TilePane p)) /\
    (forall k, tabs_example_arena !! k = None -> is_Some (ts' !! k) -> (5 <= k < rng')%N).
Proof.
  assert (Hw : well_supplied tabs_example_arena 5%N)
    by (unfold well_supplied; apply (bool_decide_unpack _); vm_compute; reflexivity).
  split; [exact Hw |]. eexists _, _. split; [vm_compute; reflexivity |].
  refine (make_all_panes_keeps_tiles false 1%N tabs_example_arena 5%N _ _ Hw _).
  vm_compute. reflexivity.
Defined.

Lemma make_all_panes_idempotent_witness :
  well_supplied tabs_example_arena 5%N /\
  exists ts' rng',
    run_make_all_panes_children_of_tabs false 1%N tabs_example_arena 5%N = Some (ts', rng') /\
    run_make_all_panes_children_of_tabs false 1%N ts' rng' = Some (ts', rng').
Proof.
  assert (Hw : well_supplied tabs_example_arena 5%N)
    by (unfold well_supplied; apply (bool_decide_unpack _); vm_compute; reflexivity).
  split; [exact Hw |]. eexists _, _. split; [vm_compute; reflexivity |].
  refine (make_all_panes_idempotent 1%N tabs_example_arena 5%N _ _ Hw _).
  vm_compute. reflexivity.
Defined.


Lemma layout_tile_covers_reachable_witness :
  exists ts' rects',
    layout_tile (fun _ r _ => r) 5 example_rect 1%N (tabs_example_arena, ∅) = Some (ts', rects') /\
    forall k, reachable tabs_example_arena 1%N k -> is_Some (tabs_example_arena !! k) ->
              is_Some (rects' !! k).
Proof.
  eexists _, _. split; [vm_compute; reflexivity |].
  refine (layout_tile_covers_reachable (fun _ r _ => r) 5 example_rect 1%N
            tabs_example_arena ∅ _ _ _).
  vm_compute. reflexivity.
Defined.


Lemma tile_ui_dragged_no_drop_witness :
  dragged_tile_id (ui_drop (example_ui_state (Some 3%N))) = Some 3%N /\
  exists st', tile_ui (fun _ _ => false) 5 3%N (example_ui_state (Some 3%N)) = Some st' /\
    candidates (ui_drop st') = candidates (ui_drop (example_ui_state (Some 3%N))).
Proof.
  split; [reflexivity |].
  eexists. split; [vm_compute; reflexivity |].
  refine (tile_ui_dragged_no_drop (fun _ _ => false) 5 3%N (example_ui_state (Some 3%N)) _
            ltac:(reflexivity) _).
  vm_compute. reflexivity.
Defined.
